(** * app-radio: the channel tree engine of [src/radio.ts]

    A shallow embedding of the [AppRadio] class: the channel tree, the two
    internal primitives [_traverseChannelTree] and [_spreadOnSubtree], the
    seven public operations, and the timer queue that [setTimeout] feeds.

    Modelling choices.
    - A [TChannelNode] is an object that the code mutates in place and that
      is never detached from the tree.  A reference to a node is therefore
      modelled by its address, the list of child keys from the root.
    - A JS [Map] is an association list with unique keys in insertion order.
    - A listener is a function value compared by identity.  User callbacks
      are opaque: calling one is recorded in a call log and has no other
      effect on the radio.  The closure that [listenOnce] builds is the
      second kind of listener; each one has a fresh identity.
    - [setTimeout] appends a task to a FIFO queue; the event loop runs the
      tasks one at a time after the current call has returned.  The code
      uses [setTimeout(f)] and [setTimeout(f, 0)], which have the same delay
      and so share one queue.
    - Strings are strings of 8-bit characters.  [toLowerCase] belongs to the
      host (see [Host]); concrete runs use the host that maps A-Z to a-z. *)

From Stdlib Require Import List String Ascii Bool Arith ZArith NArith Lia.
Import ListNotations.

#[local] Open Scope string_scope.
#[local] Open Scope list_scope.
#[local] Set Warnings "-register-all".

(** ** JavaScript values (the type [any]) *)

(** Values are data: the primitives and the plain objects built from them.
    Functions other than listeners, [String] objects and objects with
    methods of their own are not values of this model, so a [channel] that
    answers [toLowerCase()] without being a string is outside it. *)

Inductive value : Type :=
| Undefined
| Null
| Bool (b : bool)
| Num (z : Z)
| Str (s : string)
| Obj (fields : list (string * value)).

(** [export type TChannel = string] *)
Definition TChannel := string.

(** [export type TMessage = { channel: TChannel, payload?: any }] *)
Record TMessage := { channel : TChannel; payload : value }.

(** [export type TListener = (payload: any) => void].  [Handler id] is a
    callback of the embedding program, [Once k channelPath handler] is the
    arrow function [listener] created by the [k]-th call of [listenOnce]. *)
Inductive TListener : Type :=
| Handler (id : nat)
| Once (k : nat) (channelPath : TChannel) (handler : TListener).

Definition TListener_eq_dec (a b : TListener) : {a = b} + {a <> b}.
Proof.
  decide equality; [apply Nat.eq_dec | apply string_dec | apply Nat.eq_dec].
Defined.

Definition same (a b : TListener) : bool :=
  if TListener_eq_dec a b then true else false.

(** ** Strings: [toLowerCase], [split('/')] *)

Definition lower_char (c : ascii) : ascii :=
  let n := N_of_ascii c in
  if (65 <=? n)%N && (n <=? 90)%N then ascii_of_N (n + 32) else c.

Fixpoint ascii_toLowerCase (s : string) : string :=
  match s with
  | EmptyString => EmptyString
  | String c r => String (lower_char c) (ascii_toLowerCase r)
  end.

(** [String.prototype.toLowerCase] is a function of the host, with the
    case mapping of its Unicode tables.  The engine takes it as given: every
    definition below that lower-cases a path is parametric in the host, and
    what is proved about letter case is proved for every such function.
    [ascii_host], which maps A-Z to a-z, is the host on which concrete runs
    are evaluated. *)
Class Host := { toLowerCase : string -> string }.

Definition is_slash (c : ascii) : bool := Ascii.eqb c "/"%char.

(** [s.split('/')]: never empty, one more token than there are slashes. *)
Fixpoint split_slash (s : string) : list string :=
  match s with
  | EmptyString => [EmptyString]
  | String c r =>
      if is_slash c then EmptyString :: split_slash r
      else match split_slash r with
           | t :: ts => String c t :: ts
           | [] => [String c EmptyString]
           end
  end.

(** [channelPath[0] === '/'] *)
Definition starts_with_slash (s : string) : bool :=
  match s with
  | String c _ => is_slash c
  | EmptyString => false
  end.

(** [Array.prototype.shift], keeping the rest only. *)
Definition shift {A} (l : list A) : list A := tl l.

(** ** Maps with insertion order *)

Section MapOps.
Context {V : Type}.

Fixpoint map_get (k : string) (m : list (string * V)) : option V :=
  match m with
  | [] => None
  | (k', v) :: r => if String.eqb k k' then Some v else map_get k r
  end.

Definition map_has (k : string) (m : list (string * V)) : bool :=
  match map_get k m with Some _ => true | None => false end.

Fixpoint map_set (k : string) (v : V) (m : list (string * V)) : list (string * V) :=
  match m with
  | [] => [(k, v)]
  | (k', v') :: r =>
      if String.eqb k k' then (k, v) :: r else (k', v') :: map_set k v r
  end.
End MapOps.

(** ** The channel tree *)

(** [export type TChannelNode = { children, currentInfo, listeners }] *)
Inductive TChannelNode : Type :=
  mkNode { children : list (string * TChannelNode);
           currentInfo : option TMessage;
           listeners : list TListener }.

(** The object literal of lines 36-40 and of the constructor. *)
Definition emptyNode : TChannelNode :=
  {| children := []; currentInfo := None; listeners := [] |}.

Definition set_children (ch : list (string * TChannelNode)) (n : TChannelNode) :=
  {| children := ch; currentInfo := currentInfo n; listeners := listeners n |}.
Definition set_currentInfo (ci : option TMessage) (n : TChannelNode) :=
  {| children := children n; currentInfo := ci; listeners := listeners n |}.
Definition set_listeners (ls : list TListener) (n : TChannelNode) :=
  {| children := children n; currentInfo := currentInfo n; listeners := ls |}.

(** A node reference: the keys that lead to it from the root. *)
Definition NodeRef := list string.

Fixpoint find_node (ref : NodeRef) (n : TChannelNode) : option TChannelNode :=
  match ref with
  | [] => Some n
  | k :: rest =>
      match map_get k (children n) with
      | Some c => find_node rest c
      | None => None
      end
  end.

(** In-place mutation of the node behind a reference. *)
Fixpoint update_at (ref : NodeRef) (f : TChannelNode -> TChannelNode)
         (n : TChannelNode) : TChannelNode :=
  match ref with
  | [] => f n
  | k :: rest =>
      match map_get k (children n) with
      | Some c => set_children (map_set k (update_at rest f c) (children n)) n
      | None => n
      end
  end.

(** What a reader of the tree can see of the node at an address; an address
    with no node shows what a freshly created node would. *)
Definition peek {A} (g : TChannelNode -> A) (d : A) (ref : NodeRef)
           (root : TChannelNode) : A :=
  match find_node ref root with
  | Some n => g n
  | None => d
  end.

Definition cache_at : NodeRef -> TChannelNode -> option TMessage :=
  peek currentInfo None.
Definition listeners_at : NodeRef -> TChannelNode -> list TListener :=
  peek listeners [].

(** The walk over [chs] of line 5, [visit] being the recursive call. *)
Fixpoint each_child (visit : TChannelNode -> option TChannelNode)
         (chs : list (string * TChannelNode)) : option (list (string * TChannelNode)) :=
  match chs with
  | [] => Some []
  | (k, child) :: rest =>
      match visit child, each_child visit rest with
      | Some child', Some rest' => Some ((k, child') :: rest')
      | _, _ => None
      end
  end.

(** [_spreadOnSubtree] (lines 3-8): the action on the node (line 4), then
    the walker on every child that the node has after the action, in map
    order (lines 5-7).  An action may add children, so the recursion is not
    over the tree as it was: [fuel] bounds its depth, and [None] is a walk
    that has not returned within it. *)
Fixpoint _spreadOnSubtree (fuel : nat) (node : TChannelNode)
         (onNode : TChannelNode -> TChannelNode) : option TChannelNode :=
  match fuel with
  | O => None
  | S fuel =>
      let node := onNode node in
      match each_child (fun child => _spreadOnSubtree fuel child onNode)
                       (children node) with
      | Some ch => Some (set_children ch node)
      | None => None
      end
  end.

(** The number of nodes on the longest branch. *)
Fixpoint height (n : TChannelNode) : nat :=
  match n with
  | mkNode ch _ _ =>
      S (fold_right (fun kc acc => Nat.max (let '(_, child) := kc in height child) acc)
                    0 ch)
  end.

(** The walk from [node] to its end.  [height node] is fuel enough for an
    action that leaves [children] alone ([spread_returns]), which is what
    the one caller, [silence], passes. *)
Definition spreadFrom (node : TChannelNode)
           (onNode : TChannelNode -> TChannelNode) : TChannelNode :=
  match _spreadOnSubtree (height node) node onNode with
  | Some node' => node'
  | None => node
  end.

(** What the walk comes to for an action on the node's own fields: the
    shape as it was, the fields as the action leaves them. *)
Fixpoint spread_own (node : TChannelNode)
         (onNode : TChannelNode -> TChannelNode) : TChannelNode :=
  match node with
  | mkNode ch _ _ =>
      let visited := onNode node in
      {| children := map (fun kc => let '(k, child) := kc in
                                    (k, spread_own child onNode)) ch;
         currentInfo := currentInfo visited;
         listeners := listeners visited |}
  end.

(** The loop of lines 31-45 over the remaining tokens.  It returns the tree
    with the branches it created and the reference to the node it stops on.
    [channels = []] is [channel] being [undefined]. *)
Fixpoint walk (channels : list string) (currentNode : TChannelNode)
  : TChannelNode * NodeRef :=
  match channels with
  | [] => (currentNode, [])
  | channel :: rest =>
      if String.eqb channel "" then (currentNode, [])
      else
        let ch := if negb (map_has channel (children currentNode))
                  then map_set channel emptyNode (children currentNode)
                  else children currentNode in
        let child := match map_get channel ch with
                     | Some c => c
                     | None => emptyNode
                     end in
        let '(child', ref) := walk rest child in
        (set_children (map_set channel child' ch) currentNode, channel :: ref)
  end.

Section Engine.
Context {host : Host}.

(** The tokens the loop consumes (lines 19-28). *)
Definition tokens (channelPath : TChannel) : list string :=
  let channelPath := toLowerCase channelPath in
  let channels := split_slash channelPath in
  if starts_with_slash channelPath then shift channels else channels.

(** [_traverseChannelTree] (lines 18-48). *)
Definition _traverseChannelTree (rootNode : TChannelNode) (channelPath : TChannel)
  : TChannelNode * NodeRef :=
  walk (tokens channelPath) rootNode.

(** ** The radio, its timers and the call log *)

(** A callback handed to [setTimeout]. *)
Inductive Task : Type :=
| Deliver (l : TListener) (info : value)
    (** [() => l(message.payload)], lines 72 and 106 *)
| Replay (node : NodeRef) (handler : TListener).
    (** the arrow function of lines 118-122 *)

Record World := mkWorld {
  listenersRoot : TChannelNode;           (** [this.listenersRoot] *)
  timers : list Task;                     (** pending [setTimeout] callbacks *)
  closures : nat;                         (** closures created by [listenOnce] *)
  calls : list (TListener * value)        (** every listener call, oldest first *)
}.

Definition set_root (r : TChannelNode) (w : World) : World :=
  mkWorld r (timers w) (closures w) (calls w).
Definition set_timers (ts : list Task) (w : World) : World :=
  mkWorld (listenersRoot w) ts (closures w) (calls w).
Definition setTimeout (t : Task) (w : World) : World :=
  set_timers (timers w ++ [t]) w.
Definition record_call (l : TListener) (info : value) (w : World) : World :=
  mkWorld (listenersRoot w) (timers w) (closures w) (calls w ++ [(l, info)]).

(** [new AppRadio()] (lines 53-59), nothing scheduled, nothing called. *)
Definition newAppRadio : World := mkWorld emptyNode [] 0 [].

(** [listeners.includes(handler)] *)
Definition includes (ls : list TListener) (handler : TListener) : bool :=
  existsb (same handler) ls.

(** [listeners.indexOf(handler)], [-1] when absent. *)
Fixpoint indexOf (ls : list TListener) (handler : TListener) : Z :=
  match ls with
  | [] => (-1)%Z
  | l :: r =>
      if same l handler then 0%Z
      else let i := indexOf r handler in
           if (i <? 0)%Z then (-1)%Z else (i + 1)%Z
  end.

(** [listeners.splice(start, 1)] for [0 <= start]. *)
Definition splice1 {A} (start : Z) (ls : list A) : list A :=
  firstn (Z.to_nat start) ls ++ skipn (S (Z.to_nat start)) ls.

(** [subscribe] (lines 109-123). *)
Definition subscribe (channelPath : TChannel) (handler : TListener) (w : World) : World :=
  let channelPath := toLowerCase channelPath in
  let '(root, node) := _traverseChannelTree (listenersRoot w) channelPath in
  let root :=
    update_at node
      (fun n => if negb (includes (listeners n) handler)
                then set_listeners (listeners n ++ [handler]) n
                else n) root in
  setTimeout (Replay node handler) (set_root root w).

(** [unsubscribe] (lines 125-133). *)
Definition unsubscribe (channelPath : TChannel) (handler : TListener) (w : World) : World :=
  let channelPath := toLowerCase channelPath in
  let '(root, node) := _traverseChannelTree (listenersRoot w) channelPath in
  let root :=
    update_at node
      (fun n => let listenerIndex := indexOf (listeners n) handler in
                if (listenerIndex >=? 0)%Z
                then set_listeners (splice1 listenerIndex (listeners n)) n
                else n) root in
  set_root root w.

(** [listenOnce] (lines 79-87). *)
Definition listenOnce (channelPath : TChannel) (handler : TListener) (w : World) : World :=
  let channelPath := toLowerCase channelPath in
  let listener := Once (closures w) channelPath handler in
  subscribe channelPath listener
            (mkWorld (listenersRoot w) (timers w) (S (closures w)) (calls w)).

(** [isStreaming] (lines 75-77): the answer and the world after the call. *)
Definition isStreaming (channel : TChannel) (w : World) : bool * World :=
  let '(root, node) := _traverseChannelTree (listenersRoot w) channel in
  (match cache_at node root with Some _ => true | None => false end,
   set_root root w).

(** [silence] (lines 89-92); [silence()] is [silence "/"]. *)
Definition silence (channelPath : TChannel) (w : World) : World :=
  let channelPath := toLowerCase channelPath in
  let '(root, node) := _traverseChannelTree (listenersRoot w) channelPath in
  set_root
    (update_at node (fun n => spreadFrom n (set_currentInfo None)) root) w.

(** Reading a property: [None] is the TypeError of reading from [undefined]
    or [null]; a primitive or an object without the key gives [undefined]. *)
Definition get_prop (v : value) (key : string) : option value :=
  match v with
  | Undefined | Null => None
  | Obj fields =>
      match map_get key fields with
      | Some x => Some x
      | None => Some Undefined
      end
  | _ => Some Undefined
  end.

(** The object literal [{channel: c, payload: p}]. *)
Definition message_of (c : TChannel) (p : value) : value :=
  Obj [("channel", Str c); ("payload", p)].

(** Lines 63-68 (and 96-101) followed by the reads [message.channel
    .toLowerCase()] and [message.payload]: a string is wrapped for channel
    [/]; anything else must carry a string [channel], or the call throws. *)
Definition explicit (message : value) : option TMessage :=
  let message := match message with
                 | Str _ => message_of "/" message
                 | _ => message
                 end in
  match get_prop message "channel", get_prop message "payload" with
  | Some (Str c), Some p => Some {| channel := c; payload := p |}
  | _, _ => None
  end.

(** [node.listeners.forEach(l => setTimeout(() => l(message.payload), 0))] *)
Definition deliveries (ls : list TListener) (info : value) : list Task :=
  map (fun l => Deliver l info) ls.

(** The body of [broadcast] once the message is explicit (lines 70-72). *)
Definition broadcastMessage (message : TMessage) (w : World) : World :=
  let '(root, node) :=
    _traverseChannelTree (listenersRoot w) (toLowerCase (channel message)) in
  set_timers (timers w ++ deliveries (listeners_at node root) (payload message))
             (set_root root w).

(** The body of [stream] once the message is explicit (lines 103-106). *)
Definition streamMessage (message : TMessage) (w : World) : World :=
  let '(root, node) :=
    _traverseChannelTree (listenersRoot w) (toLowerCase (channel message)) in
  let root := update_at node (set_currentInfo (Some message)) root in
  set_timers (timers w ++ deliveries (listeners_at node root) (payload message))
             (set_root root w).

(** [broadcast] (lines 61-73); [None] when the call throws a TypeError,
    which happens before anything is mutated. *)
Definition broadcast (message : value) (w : World) : option World :=
  match explicit message with
  | Some m => Some (broadcastMessage m w)
  | None => None
  end.

(** [stream] (lines 94-107). *)
Definition stream (message : value) (w : World) : option World :=
  match explicit message with
  | Some m => Some (streamMessage m w)
  | None => None
  end.

(** ** Running listeners *)

(** Calling a listener.  A user callback is recorded; the [listenOnce]
    closure (lines 81-84) is recorded, calls [handler(info)] and then
    [this.unsubscribe(channelPath, listener)]. *)
Fixpoint call (l : TListener) (info : value) (w : World) : World :=
  match l with
  | Handler _ => record_call l info w
  | Once _ channelPath handler =>
      unsubscribe channelPath l (call handler info (record_call l info w))
  end.

(** Running one timer callback. *)
Definition run_task (t : Task) (w : World) : World :=
  match t with
  | Deliver l info => call l info w
  | Replay node handler =>
      match cache_at node (listenersRoot w) with
      | Some m => call handler (payload m) w
      | None => w
      end
  end.

(** One turn of the event loop: the oldest pending callback runs. *)
Definition tick (w : World) : option World :=
  match timers w with
  | [] => None
  | t :: ts => Some (run_task t (set_timers ts w))
  end.

Fixpoint run (fuel : nat) (w : World) : World :=
  match fuel with
  | O => w
  | S n => match tick w with
           | Some w' => run n w'
           | None => w
           end
  end.

(** The event loop until the queue is empty: no callback schedules another,
    so as many turns as there are pending callbacks are enough. *)
Definition settle (w : World) : World := run (List.length (timers w)) w.

(** The payloads a listener has been called with, oldest first. *)
Definition received (h : TListener) (w : World) : list value :=
  map snd (filter (fun c => same (fst c) h) (calls w)).

(** The key sequence a channel path denotes. *)
Fixpoint route (channels : list string) : NodeRef :=
  match channels with
  | [] => []
  | channel :: rest => if String.eqb channel "" then [] else channel :: route rest
  end.

Definition address (channelPath : TChannel) : NodeRef := route (tokens channelPath).

Fixpoint is_prefix (p a : NodeRef) : bool :=
  match p, a with
  | [], _ => true
  | k :: p', k' :: a' => String.eqb k k' && is_prefix p' a'
  | _ :: _, [] => false
  end.

(** How many calls of [h] one call of [l] makes: [l] itself if it is [h],
    and whatever the handler wrapped by a [listenOnce] closure makes. *)
Fixpoint hits (l h : TListener) : nat :=
  (if same l h then 1 else 0) +
  match l with
  | Handler _ => 0
  | Once _ _ g => hits g h
  end.

(** ** Notions the statements are written with *)

(** The tree once [_traverseChannelTree] has created the missing branches. *)
Definition grown (root : TChannelNode) (p : TChannel) : TChannelNode :=
  fst (_traverseChannelTree root p).

Definition NodeRef_eq_dec : forall a b : NodeRef, {a = b} + {a <> b} :=
  list_eq_dec string_dec.

(** What lines 128-132 leave of the list: the first occurrence is gone. *)
Definition unlisten (ls : list TListener) (handler : TListener) : list TListener :=
  let listenerIndex := indexOf ls handler in
  if (listenerIndex >=? 0)%Z then splice1 listenerIndex ls else ls.

Fixpoint remove_first (h : TListener) (ls : list TListener) : list TListener :=
  match ls with
  | [] => []
  | l :: r => if same l h then r else l :: remove_first h r
  end.

(** What lines 114-116 leave of the list. *)
Definition enlist (ls : list TListener) (handler : TListener) : list TListener :=
  if negb (includes ls handler) then ls ++ [handler] else ls.

(** The payloads that running [t] hands to [h], given the caches of [root]. *)
Definition task_payloads (root : TChannelNode) (h : TListener) (t : Task) : list value :=
  match t with
  | Deliver l info => repeat info (hits l h)
  | Replay node g =>
      match cache_at node root with
      | Some m => repeat (payload m) (hits g h)
      | None => []
      end
  end.

(** The worlds that a program can bring about: the seven operations, called
    in any order with any arguments, and turns of the event loop. *)
Inductive reachable : World -> Prop :=
| reach_new : reachable newAppRadio
| reach_subscribe p h w : reachable w -> reachable (subscribe p h w)
| reach_unsubscribe p h w : reachable w -> reachable (unsubscribe p h w)
| reach_listenOnce p h w : reachable w -> reachable (listenOnce p h w)
| reach_silence p w : reachable w -> reachable (silence p w)
| reach_isStreaming p w : reachable w -> reachable (snd (isStreaming p w))
| reach_broadcast v w w' : reachable w -> broadcast v w = Some w' -> reachable w'
| reach_stream v w w' : reachable w -> stream v w = Some w' -> reachable w'
| reach_tick w w' : reachable w -> tick w = Some w' -> reachable w'.

(** No node lists a listener twice. *)
Definition tidy (w : World) : Prop :=
  forall a, NoDup (listeners_at a (listenersRoot w)).

Fixpoint depth (l : TListener) : nat :=
  match l with
  | Handler _ => 0
  | Once _ _ g => S (depth g)
  end.

(** One call of an operation, or one turn of the event loop. *)
Inductive step : World -> World -> Prop :=
| step_subscribe p h w : step w (subscribe p h w)
| step_unsubscribe p h w : step w (unsubscribe p h w)
| step_listenOnce p h w : step w (listenOnce p h w)
| step_silence p w : step w (silence p w)
| step_isStreaming p w : step w (snd (isStreaming p w))
| step_broadcast v w w' : broadcast v w = Some w' -> step w w'
| step_stream v w w' : stream v w = Some w' -> step w w'
| step_tick w w' : tick w = Some w' -> step w w'.

Inductive steps : World -> World -> Prop :=
| steps_none w : steps w w
| steps_more w1 w2 w3 : steps w1 w2 -> step w2 w3 -> steps w1 w3.

(** The calls that one call of [l] with [info] makes, in order. *)
Fixpoint trace (l : TListener) (info : value) : list (TListener * value) :=
  (l, info) :: match l with
               | Handler _ => []
               | Once _ _ g => trace g info
               end.

(** The calls that running [t] makes, given the caches of [root]. *)
Definition task_trace (root : TChannelNode) (t : Task) : list (TListener * value) :=
  match t with
  | Deliver l info => trace l info
  | Replay node g =>
      match cache_at node root with
      | Some m => trace g (payload m)
      | None => []
      end
  end.

Fixpoint has_slash (s : string) : bool :=
  match s with
  | EmptyString => false
  | String c r => is_slash c || has_slash r
  end.

(** A key that traversal can have put into a [children] map. *)
Definition good_key (k : string) : Prop :=
  k <> "" /\ toLowerCase k = k /\ has_slash k = false.

(** Every [children] map of the tree has pairwise different keys, all of
    them good. *)
Inductive well_keyed : TChannelNode -> Prop :=
| well_keyed_node ch ci ls :
    NoDup (map fst ch) ->
    Forall good_key (map fst ch) ->
    Forall (fun kc => well_keyed (snd kc)) ch ->
    well_keyed (mkNode ch ci ls).

(** Running [t] calls the listener [l] itself. *)
Definition calls_listener (root : TChannelNode) (t : Task) (l : TListener) : Prop :=
  match t with
  | Deliver l' _ => l' = l
  | Replay node g => g = l /\ cache_at node root <> None
  end.

(** What [split('/')] of a lower-case string gives. *)
Definition token_ok (t : string) : Prop :=
  toLowerCase t = t /\ has_slash t = false.

(** The arguments that [broadcast] and [stream] take without throwing: a
    string, or an object whose [channel] is a string. *)
Definition accepted (message : value) : Prop :=
  match message with
  | Str _ => True
  | Obj fields => exists c, map_get "channel" fields = Some (Str c)
  | _ => False
  end.

(** One call or timer turn that silences nothing and streams nothing to
    the node [node]. *)
Inductive quiet_step (node : NodeRef) : World -> World -> Prop :=
| quiet_subscribe p h w : quiet_step node w (subscribe p h w)
| quiet_unsubscribe p h w : quiet_step node w (unsubscribe p h w)
| quiet_listenOnce p h w : quiet_step node w (listenOnce p h w)
| quiet_isStreaming p w : quiet_step node w (snd (isStreaming p w))
| quiet_broadcast v w w' : broadcast v w = Some w' -> quiet_step node w w'
| quiet_stream v m w w' :
    explicit v = Some m -> address (channel m) <> node ->
    stream v w = Some w' -> quiet_step node w w'
| quiet_tick w w' : tick w = Some w' -> quiet_step node w w'.

Inductive quiet (node : NodeRef) : World -> World -> Prop :=
| quiet_none w : quiet node w w
| quiet_more w1 w2 w3 :
    quiet node w1 w2 -> quiet_step node w2 w3 -> quiet node w1 w3.

End Engine.

#[global] Instance ascii_host : Host := {| toLowerCase := ascii_toLowerCase |}.

(** A second host, for runs on paths beyond ASCII: characters are Latin-1
    code points, and A-Z and the accented capitals are mapped to their small
    letters. *)
Definition latin1_lower_char (c : ascii) : ascii :=
  let n := N_of_ascii c in
  if ((65 <=? n) && (n <=? 90) || (192 <=? n) && (n <=? 222) && negb (n =? 215))%N
  then ascii_of_N (n + 32) else c.

Fixpoint latin1_toLowerCase (s : string) : string :=
  match s with
  | EmptyString => EmptyString
  | String c r => String (latin1_lower_char c) (latin1_toLowerCase r)
  end.

Definition latin1_host : Host := {| toLowerCase := latin1_toLowerCase |}.

(** * Properties *)

(** ** Sanity checks of the embedding on concrete inputs *)

Example tokens_plain : tokens "A/b" = ["a"; "b"].
Proof. reflexivity. Qed.
Example tokens_rooted : tokens "/a/B/" = ["a"; "b"; ""].
Proof. reflexivity. Qed.
Example address_root : address "/" = [] /\ address "" = [].
Proof. split; reflexivity. Qed.
Example address_double_slash : address "a//b" = ["a"].
Proof. reflexivity. Qed.

Example stream_then_subscribe_replays :
  option_map (fun w => received (Handler 0) (settle (subscribe "/" (Handler 0) w)))
             (stream (Str "hello") newAppRadio)
  = Some [Str "hello"].
Proof. vm_compute. reflexivity. Qed.

Example stream_then_silence_parent :
  option_map (fun w => (fst (isStreaming "a/b" w),
                        fst (isStreaming "a/b" (silence "a" w))))
             (stream (message_of "a/b" (Num 1)) (subscribe "a/b" (Handler 0) newAppRadio))
  = Some (true, false).
Proof. vm_compute. reflexivity. Qed.

(** ** Strings *)

Lemma lower_char_idem (c : ascii) : lower_char (lower_char c) = lower_char c.
Proof.
  destruct c as [[] [] [] [] [] [] [] []]; reflexivity.
Qed.

Lemma toLowerCase_idem (s : string) : toLowerCase (toLowerCase s) = toLowerCase s.
Proof.
  induction s as [|c r IH]; [reflexivity|].
  change (String (lower_char (lower_char c)) (toLowerCase (toLowerCase r))
          = String (lower_char c) (toLowerCase r)).
  now rewrite lower_char_idem, IH.
Qed.

Lemma tokens_lower (p : TChannel) : tokens (toLowerCase p) = tokens p.
Proof. unfold tokens. now rewrite toLowerCase_idem. Qed.

Lemma address_lower (p : TChannel) : address (toLowerCase p) = address p.
Proof. unfold address. now rewrite tokens_lower. Qed.

(** ** Maps *)

Section MapFacts.
Context {V : Type}.
Implicit Types (m : list (string * V)) (k : string) (v : V).

Lemma map_get_set_same k v m : map_get k (map_set k v m) = Some v.
Proof.
  induction m as [|[k' v'] r IH]; simpl.
  - now rewrite String.eqb_refl.
  - destruct (String.eqb k k') eqn:E; simpl; rewrite ?String.eqb_refl, ?E; auto.
Qed.

Lemma map_get_set_other k k' v m :
  String.eqb k' k = false -> map_get k' (map_set k v m) = map_get k' m.
Proof.
  intros N. induction m as [|[k0 v0] r IH]; simpl.
  - now rewrite N.
  - destruct (String.eqb k k0) eqn:E; simpl.
    + apply String.eqb_eq in E. subst k0. now rewrite N.
    + now rewrite IH.
Qed.

Lemma map_set_twice k v v' m : map_set k v (map_set k v' m) = map_set k v m.
Proof.
  induction m as [|[k0 v0] r IH]; simpl.
  - now rewrite String.eqb_refl.
  - destruct (String.eqb k k0) eqn:E; simpl; rewrite ?String.eqb_refl, ?E; congruence.
Qed.

Lemma map_set_get k v m : map_get k m = Some v -> map_set k v m = m.
Proof.
  induction m as [|[k0 v0] r IH]; simpl; [discriminate|].
  destruct (String.eqb k k0) eqn:E.
  - apply String.eqb_eq in E. intros [= ->]. now subst.
  - intros H. now rewrite IH.
Qed.
End MapFacts.

Lemma map_get_map {V W} (f : V -> W) k (m : list (string * V)) :
  map_get k (map (fun kc => let '(k0, c) := kc in (k0, f c)) m)
  = option_map f (map_get k m).
Proof.
  induction m as [|[k0 v0] r IH]; simpl; [reflexivity|].
  now destruct (String.eqb k k0).
Qed.

(** ** Addresses *)

Lemma is_prefix_app (p b : NodeRef) : is_prefix p (p ++ b) = true.
Proof.
  induction p as [|k p IH]; simpl; [reflexivity|].
  now rewrite String.eqb_refl, IH.
Qed.

Lemma is_prefix_split (p a : NodeRef) :
  is_prefix p a = true -> exists b, a = p ++ b.
Proof.
  revert a. induction p as [|k p IH]; intros a H; simpl in *.
  - now exists a.
  - destruct a as [|k' a]; [discriminate|].
    apply andb_true_iff in H as [E H]. apply String.eqb_eq in E. subst k'.
    destruct (IH _ H) as [b ->]. now exists b.
Qed.

Lemma is_prefix_refl (p : NodeRef) : is_prefix p p = true.
Proof. rewrite <- (app_nil_r p) at 2. apply is_prefix_app. Qed.

(** ** The tree under traversal and mutation *)

Lemma walk_ref (ts : list string) (n : TChannelNode) : snd (walk ts n) = route ts.
Proof.
  revert n. induction ts as [|t ts IH]; intros n; simpl; [reflexivity|].
  destruct (String.eqb t ""); [reflexivity|].
  match goal with |- context [walk ts ?c] =>
    specialize (IH c); destruct (walk ts c) as [c' r] end.
  simpl in *. now subst.
Qed.

Lemma traverse_ref (root : TChannelNode) (p : TChannel) :
  snd (_traverseChannelTree root p) = address p.
Proof. apply walk_ref. Qed.

Lemma find_update_below (ref b : NodeRef) f (n : TChannelNode) :
  find_node (ref ++ b) (update_at ref f n)
  = match find_node ref n with
    | Some m => find_node b (f m)
    | None => None
    end.
Proof.
  revert n. induction ref as [|k ref IH]; intros n; simpl; [reflexivity|].
  destruct (map_get k (children n)) as [c|] eqn:E; simpl.
  - now rewrite map_get_set_same, IH.
  - now rewrite E.
Qed.

Lemma find_node_app (ref b : NodeRef) (n : TChannelNode) :
  find_node (ref ++ b) n
  = match find_node ref n with
    | Some m => find_node b m
    | None => None
    end.
Proof.
  revert n. induction ref as [|k ref IH]; intros n; simpl; [reflexivity|].
  destruct (map_get k (children n)); [apply IH | reflexivity].
Qed.

Lemma find_spread (a : NodeRef) onNode (n : TChannelNode) :
  find_node a (spread_own n onNode)
  = option_map (fun m => spread_own m onNode) (find_node a n).
Proof.
  revert n. induction a as [|k a IH]; intros n.
  - reflexivity.
  - destruct n as [ch ci ls]. simpl.
    rewrite (map_get_map (fun c => spread_own c onNode)).
    destruct (map_get k ch) as [c|]; simpl; [apply IH | reflexivity].
Qed.

Section Peek.
Context {A : Type} (g : TChannelNode -> A) (d : A).
(** [g] reads the node's own fields, and [d] is what it reads on a node
    that traversal has just created. *)
Hypothesis g_own : forall ch ch' ci ls, g (mkNode ch ci ls) = g (mkNode ch' ci ls).
Hypothesis g_empty : g emptyNode = d.

Lemma g_set_children ch n : g (set_children ch n) = g n.
Proof. destruct n. apply g_own. Qed.

Lemma peek_empty (a : NodeRef) : peek g d a emptyNode = d.
Proof. destruct a; [exact g_empty | reflexivity]. Qed.

Lemma peek_cons k a n :
  peek g d (k :: a) n
  = match map_get k (children n) with Some c => peek g d a c | None => d end.
Proof. unfold peek. simpl. now destruct (map_get k (children n)). Qed.

Lemma peek_walk (ts : list string) (a : NodeRef) (n : TChannelNode) :
  peek g d a (fst (walk ts n)) = peek g d a n.
Proof.
  revert a n. induction ts as [|t ts IH]; intros a n; simpl; [reflexivity|].
  destruct (String.eqb t ""); [reflexivity|].
  match goal with |- context [walk ts ?c] =>
    set (child := c);
    pose proof (fun a => IH a child) as IHc; destruct (walk ts child) as [c' r] end.
  simpl in *.
  destruct a as [|k a]; [apply g_set_children|].
  rewrite !peek_cons. simpl.
  destruct (String.eqb k t) eqn:E.
  - apply String.eqb_eq in E. subst k.
    rewrite map_get_set_same, IHc. subst child.
    unfold map_has. destruct (map_get t (children n)) eqn:G; simpl.
    + now rewrite G.
    + rewrite map_get_set_same. apply peek_empty.
  - rewrite map_get_set_other by exact E.
    unfold map_has. destruct (map_get t (children n)); simpl; [reflexivity|].
    now rewrite map_get_set_other.
Qed.

Lemma peek_update_off (ref a : NodeRef) f (n : TChannelNode) :
  is_prefix ref a = false ->
  peek g d a (update_at ref f n) = peek g d a n.
Proof.
  revert a n. induction ref as [|k ref IH]; intros a n H; simpl in *; [discriminate|].
  destruct (map_get k (children n)) as [c|] eqn:E; [|reflexivity].
  destruct a as [|k' a]; [apply g_set_children|].
  rewrite !peek_cons. simpl.
  destruct (String.eqb k k') eqn:K; simpl in H.
  - apply String.eqb_eq in K. subst k'.
    now rewrite map_get_set_same, E, IH.
  - rewrite map_get_set_other; [reflexivity|].
    rewrite String.eqb_sym. exact K.
Qed.

(** Below the mutated node, when the mutation keeps the child map. *)
Lemma peek_update_under (ref b : NodeRef) f (n : TChannelNode) :
  (forall m, children (f m) = children m) -> b <> [] ->
  peek g d (ref ++ b) (update_at ref f n) = peek g d (ref ++ b) n.
Proof.
  intros Hf Hb. unfold peek. rewrite find_update_below, find_node_app.
  destruct (find_node ref n) as [m|]; [|reflexivity].
  destruct b as [|k b]; [congruence|]. simpl. now rewrite Hf.
Qed.

Lemma peek_update_at (ref : NodeRef) f (n : TChannelNode) :
  peek g d ref (update_at ref f n)
  = match find_node ref n with Some m => g (f m) | None => d end.
Proof.
  unfold peek. rewrite <- (app_nil_r ref) at 1. rewrite find_update_below.
  now destruct (find_node ref n).
Qed.

(** A mutation of the node's own fields is seen at that node only. *)
Lemma peek_update_other (ref a : NodeRef) f (n : TChannelNode) :
  (forall m, children (f m) = children m) -> a <> ref ->
  peek g d a (update_at ref f n) = peek g d a n.
Proof.
  intros Hf Ha. destruct (is_prefix ref a) eqn:P.
  - destruct (is_prefix_split _ _ P) as [b ->].
    apply peek_update_under; [exact Hf|].
    intros ->. apply Ha. apply app_nil_r.
  - now apply peek_update_off.
Qed.
End Peek.

Lemma walk_found (ts : list string) (n : TChannelNode) :
  exists m, find_node (route ts) (fst (walk ts n)) = Some m.
Proof.
  revert n. induction ts as [|t ts IH]; intros n; simpl; [now exists n|].
  destruct (String.eqb t "") eqn:E; simpl; [now exists n|].
  match goal with |- context [walk ts ?c] =>
    destruct (IH c) as [m Hm]; destruct (walk ts c) as [c' r] end.
  simpl in *. rewrite map_get_set_same. now exists m.
Qed.

(** Traversal of a path whose node is already there changes nothing. *)
Lemma walk_existing (ts : list string) (n : TChannelNode) :
  find_node (route ts) n <> None -> fst (walk ts n) = n.
Proof.
  revert n. induction ts as [|t ts IH]; intros n H; simpl in *; [reflexivity|].
  destruct (String.eqb t ""); [reflexivity|]. simpl in H.
  unfold map_has. destruct (map_get t (children n)) as [c|] eqn:G; [|congruence].
  simpl. rewrite G. specialize (IH c H).
  destruct (walk ts c) as [c' r]. simpl in *. subst c'.
  rewrite (map_set_get _ _ _ G). now destruct n.
Qed.

Lemma traverse_split (root : TChannelNode) (p : TChannel) :
  _traverseChannelTree root p = (grown root p, address p).
Proof.
  unfold grown. rewrite <- (traverse_ref root p). apply surjective_pairing.
Qed.

Lemma cache_grown a root p : cache_at a (grown root p) = cache_at a root.
Proof. apply (peek_walk currentInfo None); reflexivity. Qed.

Lemma listeners_grown a root p : listeners_at a (grown root p) = listeners_at a root.
Proof. apply (peek_walk listeners []); reflexivity. Qed.

Lemma grown_found root p :
  exists m, find_node (address p) (grown root p) = Some m
            /\ currentInfo m = cache_at (address p) root
            /\ listeners m = listeners_at (address p) root.
Proof.
  destruct (walk_found (tokens p) root) as [m Hm]. exists m.
  split; [exact Hm|].
  rewrite <- (cache_grown _ root p), <- (listeners_grown _ root p).
  unfold cache_at, listeners_at, peek, grown, _traverseChannelTree, address.
  now rewrite Hm.
Qed.

Lemma grown_existing root p :
  find_node (address p) root <> None -> grown root p = root.
Proof. apply walk_existing. Qed.

(** A mutation [f] of the own fields of the node that [p] denotes, seen
    through [cache_at] and [listeners_at]. *)
Section OwnFieldUpdate.
Variables (f : TChannelNode -> TChannelNode) (root : TChannelNode) (p : TChannel).
Hypothesis f_children : forall m, children (f m) = children m.

Lemma cache_update_other a :
  a <> address p ->
  cache_at a (update_at (address p) f (grown root p)) = cache_at a root.
Proof.
  intros H. unfold cache_at.
  rewrite peek_update_other by (auto || reflexivity). apply cache_grown.
Qed.

Lemma listeners_update_other a :
  a <> address p ->
  listeners_at a (update_at (address p) f (grown root p)) = listeners_at a root.
Proof.
  intros H. unfold listeners_at.
  rewrite peek_update_other by (auto || reflexivity). apply listeners_grown.
Qed.

Lemma fields_update_here :
  exists m, currentInfo m = cache_at (address p) root
            /\ listeners m = listeners_at (address p) root
            /\ cache_at (address p) (update_at (address p) f (grown root p))
               = currentInfo (f m)
            /\ listeners_at (address p) (update_at (address p) f (grown root p))
               = listeners (f m).
Proof.
  destruct (grown_found root p) as (m & F & C & L). exists m.
  unfold cache_at, listeners_at. rewrite !peek_update_at, F. auto.
Qed.

Lemma cache_update_kept a :
  (forall m, currentInfo (f m) = currentInfo m) ->
  cache_at a (update_at (address p) f (grown root p)) = cache_at a root.
Proof.
  intros K. destruct (NodeRef_eq_dec a (address p)) as [->|N].
  - destruct fields_update_here as (m & C & _ & C' & _). congruence.
  - now apply cache_update_other.
Qed.

Lemma listeners_update_kept a :
  (forall m, listeners (f m) = listeners m) ->
  listeners_at a (update_at (address p) f (grown root p)) = listeners_at a root.
Proof.
  intros K. destruct (NodeRef_eq_dec a (address p)) as [->|N].
  - destruct fields_update_here as (m & _ & L & _ & L'). congruence.
  - now apply listeners_update_other.
Qed.
End OwnFieldUpdate.

(** ** Listener lists *)

Lemma same_true a b : same a b = true <-> a = b.
Proof. unfold same. destruct (TListener_eq_dec a b); split; congruence. Qed.

Lemma same_false a b : same a b = false <-> a <> b.
Proof. unfold same. destruct (TListener_eq_dec a b); split; congruence. Qed.

Lemma same_refl a : same a a = true.
Proof. now apply same_true. Qed.

Lemma includes_In ls h : includes ls h = true <-> In h ls.
Proof.
  unfold includes. rewrite existsb_exists. split.
  - intros (x & I & S). apply same_true in S. now subst.
  - intros I. exists h. split; [exact I | apply same_refl].
Qed.

Lemma includes_not_In ls h : includes ls h = false <-> ~ In h ls.
Proof.
  rewrite <- includes_In. destruct (includes ls h); split; congruence.
Qed.

Lemma indexOf_range ls h : (-1 <= indexOf ls h)%Z.
Proof.
  induction ls as [|l r IH]; simpl; [lia|].
  destruct (same l h); [lia|].
  destruct (indexOf r h <? 0)%Z eqn:E; lia.
Qed.

Lemma unlisten_remove_first ls h : unlisten ls h = remove_first h ls.
Proof.
  unfold unlisten. induction ls as [|l r IH]; simpl; [reflexivity|].
  destruct (same l h); [reflexivity|].
  pose proof (indexOf_range r h) as R.
  destruct (indexOf r h <? 0)%Z eqn:E.
  - apply Z.ltb_lt in E. simpl. f_equal. rewrite <- IH.
    destruct (indexOf r h >=? 0)%Z eqn:G; [lia | reflexivity].
  - apply Z.ltb_ge in E.
    replace (indexOf r h >=? 0)%Z with true in IH by (symmetry; lia).
    replace (indexOf r h + 1 >=? 0)%Z with true by (symmetry; lia).
    rewrite <- IH. unfold splice1.
    replace (Z.to_nat (indexOf r h + 1)) with (S (Z.to_nat (indexOf r h))) by lia.
    reflexivity.
Qed.

Lemma remove_first_incl h ls x : In x (remove_first h ls) -> In x ls.
Proof.
  induction ls as [|l r IH]; simpl; [auto|].
  destruct (same l h); simpl; intuition.
Qed.

Lemma remove_first_NoDup h ls : NoDup ls -> NoDup (remove_first h ls).
Proof.
  induction 1 as [|l r N D IH]; simpl; [constructor|].
  destruct (same l h); [exact D|].
  constructor; [|exact IH]. intros I. apply N. eapply remove_first_incl, I.
Qed.

Lemma remove_first_gone h ls : NoDup ls -> ~ In h (remove_first h ls).
Proof.
  induction 1 as [|l r N D IH]; simpl; [auto|].
  destruct (same l h) eqn:E.
  - apply same_true in E. now subst.
  - apply same_false in E. simpl. intuition.
Qed.

Lemma remove_first_absent h ls : ~ In h ls -> remove_first h ls = ls.
Proof.
  induction ls as [|l r IH]; simpl; [reflexivity|]. intros N.
  destruct (same l h) eqn:E.
  - apply same_true in E. subst. tauto.
  - f_equal. apply IH. tauto.
Qed.

Lemma remove_first_other h x ls : x <> h -> In x ls -> In x (remove_first h ls).
Proof.
  intros N. induction ls as [|l r IH]; simpl; [auto|].
  destruct (same l h) eqn:E.
  - apply same_true in E. subst. intuition congruence.
  - simpl. intuition.
Qed.

Lemma enlist_In ls h : In h (enlist ls h).
Proof.
  unfold enlist. destruct (includes ls h) eqn:E; simpl.
  - now apply includes_In.
  - apply in_or_app. right. now left.
Qed.

Lemma enlist_NoDup ls h : NoDup ls -> NoDup (enlist ls h).
Proof.
  unfold enlist. destruct (includes ls h) eqn:E; simpl; [auto|]. intros N.
  apply includes_not_In in E.
  apply NoDup_rev in N. rewrite <- (rev_involutive (ls ++ [h])).
  apply NoDup_rev. rewrite rev_app_distr. simpl. constructor; [|exact N].
  now rewrite <- in_rev.
Qed.

Lemma enlist_twice ls h : enlist (enlist ls h) h = enlist ls h.
Proof.
  unfold enlist at 1. pose proof (enlist_In ls h) as I.
  apply includes_In in I. now rewrite I.
Qed.

(** ** What each operation does to the world *)

Ltac open_traverse :=
  rewrite traverse_split; cbn beta iota zeta; cbn [listenersRoot timers calls closures
    set_root set_timers setTimeout].

Section Subscribe.
Variables (p : TChannel) (h : TListener) (w : World).

Lemma subscribe_timers :
  timers (subscribe p h w) = timers w ++ [Replay (address p) h].
Proof. unfold subscribe. open_traverse. now rewrite address_lower. Qed.

Lemma subscribe_calls : calls (subscribe p h w) = calls w.
Proof. unfold subscribe. now open_traverse. Qed.

Lemma subscribe_cache a :
  cache_at a (listenersRoot (subscribe p h w)) = cache_at a (listenersRoot w).
Proof.
  unfold subscribe. open_traverse. apply cache_update_kept.
  - intros m. now destruct (includes (listeners m) h).
  - intros m. now destruct (includes (listeners m) h).
Qed.

Lemma subscribe_listeners_other a :
  a <> address p ->
  listeners_at a (listenersRoot (subscribe p h w)) = listeners_at a (listenersRoot w).
Proof.
  intros N. unfold subscribe. open_traverse. apply listeners_update_other.
  - intros m. now destruct (includes (listeners m) h).
  - now rewrite address_lower.
Qed.

Lemma subscribe_listeners :
  listeners_at (address p) (listenersRoot (subscribe p h w))
  = enlist (listeners_at (address p) (listenersRoot w)) h.
Proof.
  unfold subscribe. open_traverse.
  match goal with |- context [update_at _ ?f _] =>
    destruct (fields_update_here f (listenersRoot w) (toLowerCase p))
      as (m & _ & L & _ & L') end.
  rewrite address_lower in *. rewrite L', <- L. unfold enlist.
  now destruct (includes (listeners m) h).
Qed.
End Subscribe.

Section Unsubscribe.
Variables (p : TChannel) (h : TListener) (w : World).

Lemma unsubscribe_timers : timers (unsubscribe p h w) = timers w.
Proof. unfold unsubscribe. now open_traverse. Qed.

Lemma unsubscribe_calls : calls (unsubscribe p h w) = calls w.
Proof. unfold unsubscribe. now open_traverse. Qed.

Lemma unsubscribe_cache a :
  cache_at a (listenersRoot (unsubscribe p h w)) = cache_at a (listenersRoot w).
Proof.
  unfold unsubscribe. open_traverse. apply cache_update_kept.
  - intros m. now destruct (indexOf (listeners m) h >=? 0)%Z.
  - intros m. now destruct (indexOf (listeners m) h >=? 0)%Z.
Qed.

Lemma unsubscribe_listeners_other a :
  a <> address p ->
  listeners_at a (listenersRoot (unsubscribe p h w)) = listeners_at a (listenersRoot w).
Proof.
  intros N. unfold unsubscribe. open_traverse. apply listeners_update_other.
  - intros m. now destruct (indexOf (listeners m) h >=? 0)%Z.
  - now rewrite address_lower.
Qed.

Lemma unsubscribe_listeners :
  listeners_at (address p) (listenersRoot (unsubscribe p h w))
  = remove_first h (listeners_at (address p) (listenersRoot w)).
Proof.
  unfold unsubscribe. open_traverse.
  match goal with |- context [update_at _ ?f _] =>
    destruct (fields_update_here f (listenersRoot w) (toLowerCase p))
      as (m & _ & L & _ & L') end.
  rewrite address_lower in *. rewrite L', <- L, <- unlisten_remove_first.
  unfold unlisten. now destruct (indexOf (listeners m) h >=? 0)%Z.
Qed.
End Unsubscribe.

Section Publish.
Variables (m : TMessage) (w : World).

Lemma broadcast_root :
  listenersRoot (broadcastMessage m w)
  = grown (listenersRoot w) (toLowerCase (channel m)).
Proof. unfold broadcastMessage. now open_traverse. Qed.

Lemma broadcast_timers :
  timers (broadcastMessage m w)
  = timers w ++ deliveries (listeners_at (address (channel m)) (listenersRoot w))
                           (payload m).
Proof.
  unfold broadcastMessage. open_traverse.
  now rewrite listeners_grown, address_lower.
Qed.

Lemma broadcast_calls : calls (broadcastMessage m w) = calls w.
Proof. unfold broadcastMessage. now open_traverse. Qed.

Lemma broadcast_cache a :
  cache_at a (listenersRoot (broadcastMessage m w)) = cache_at a (listenersRoot w).
Proof. rewrite broadcast_root. apply cache_grown. Qed.

Lemma broadcast_listeners a :
  listeners_at a (listenersRoot (broadcastMessage m w))
  = listeners_at a (listenersRoot w).
Proof. rewrite broadcast_root. apply listeners_grown. Qed.

Lemma stream_listeners a :
  listeners_at a (listenersRoot (streamMessage m w))
  = listeners_at a (listenersRoot w).
Proof.
  unfold streamMessage. open_traverse. now apply listeners_update_kept.
Qed.

Lemma stream_timers :
  timers (streamMessage m w)
  = timers w ++ deliveries (listeners_at (address (channel m)) (listenersRoot w))
                           (payload m).
Proof.
  pose proof (stream_listeners (address (channel m))) as L.
  unfold streamMessage in *. revert L. open_traverse.
  rewrite address_lower. now intros ->.
Qed.

Lemma stream_calls : calls (streamMessage m w) = calls w.
Proof. unfold streamMessage. now open_traverse. Qed.

Lemma stream_cache :
  cache_at (address (channel m)) (listenersRoot (streamMessage m w)) = Some m.
Proof.
  unfold streamMessage. open_traverse.
  destruct (fields_update_here (set_currentInfo (Some m)) (listenersRoot w)
              (toLowerCase (channel m))) as (n & _ & _ & C & _).
  rewrite address_lower in *. exact C.
Qed.

Lemma stream_cache_other a :
  a <> address (channel m) ->
  cache_at a (listenersRoot (streamMessage m w)) = cache_at a (listenersRoot w).
Proof.
  intros N. unfold streamMessage. open_traverse.
  apply cache_update_other; [reflexivity | now rewrite address_lower].
Qed.
End Publish.

Lemma TChannelNode_nested_ind (P : TChannelNode -> Prop) :
  (forall ch ci ls, Forall (fun kc => P (snd kc)) ch -> P (mkNode ch ci ls)) ->
  forall n, P n.
Proof.
  intros H. fix IH 1. intros [ch ci ls]. apply H.
  induction ch as [|[k c] r IHr]; constructor; [apply IH | exact IHr].
Qed.

Lemma update_at_ext (ref : NodeRef) f g (n : TChannelNode) :
  (forall m, f m = g m) -> update_at ref f n = update_at ref g n.
Proof.
  intros E. revert n. induction ref as [|k ref IH]; intros n; simpl; [apply E|].
  destruct (map_get k (children n)); [now rewrite IH | reflexivity].
Qed.

Lemma height_children fuel ch ci ls :
  height (mkNode ch ci ls) <= S fuel ->
  Forall (fun kc => height (snd kc) <= fuel) ch.
Proof.
  simpl. intros H. apply le_S_n in H.
  induction ch as [|[k c] r IH]; constructor; simpl in *; [lia | apply IH; lia].
Qed.

(** The walk returns when the action leaves [children] alone and the fuel
    is at least the height of the tree. *)
Lemma spread_returns onNode :
  (forall m, children (onNode m) = children m) ->
  forall n fuel, height n <= fuel ->
                 _spreadOnSubtree fuel n onNode = Some (spread_own n onNode).
Proof.
  intros K n. induction n as [ch ci ls IH] using TChannelNode_nested_ind.
  intros [|fuel] H; [simpl in H; lia|].
  apply height_children in H. cbn [_spreadOnSubtree]. rewrite K. cbn [children].
  replace (each_child (fun child => _spreadOnSubtree fuel child onNode) ch)
    with (Some (map (fun kc : string * TChannelNode =>
                       let '(k, child) := kc in (k, spread_own child onNode)) ch)).
  - reflexivity.
  - clear K. induction ch as [|[k c] r IHr]; [reflexivity|].
    inversion IH as [|? ? Hc Hr]; inversion H as [|? ? Bc Br]; subst. simpl in *.
    now rewrite (Hc fuel Bc), <- (IHr Hr Br).
Qed.

Lemma spreadFrom_own onNode n :
  (forall m, children (onNode m) = children m) ->
  spreadFrom n onNode = spread_own n onNode.
Proof.
  intros K. unfold spreadFrom. now rewrite (spread_returns onNode K n (height n)).
Qed.

Lemma spreadFrom_clear n :
  spreadFrom n (set_currentInfo None) = spread_own n (set_currentInfo None).
Proof. now apply spreadFrom_own. Qed.

Lemma spread_clear_cache (n : TChannelNode) :
  currentInfo (spread_own n (set_currentInfo None)) = None.
Proof. now destruct n. Qed.

Lemma spread_clear_listeners (n : TChannelNode) :
  listeners (spread_own n (set_currentInfo None)) = listeners n.
Proof. now destruct n. Qed.

Section Silence.
Variables (p : TChannel) (w : World).

Lemma silence_root :
  listenersRoot (silence p w)
  = update_at (address p) (fun n => spread_own n (set_currentInfo None))
              (grown (listenersRoot w) (toLowerCase p)).
Proof.
  unfold silence. open_traverse. rewrite address_lower.
  apply update_at_ext, spreadFrom_clear.
Qed.

Lemma silence_timers : timers (silence p w) = timers w.
Proof. unfold silence. now open_traverse. Qed.

Lemma silence_calls : calls (silence p w) = calls w.
Proof. unfold silence. now open_traverse. Qed.

Lemma silence_cache_off a :
  is_prefix (address p) a = false ->
  cache_at a (listenersRoot (silence p w)) = cache_at a (listenersRoot w).
Proof.
  intros H. rewrite silence_root. unfold cache_at.
  rewrite peek_update_off by (auto || reflexivity). apply cache_grown.
Qed.

Lemma silence_cache_under a :
  is_prefix (address p) a = true ->
  cache_at a (listenersRoot (silence p w)) = None.
Proof.
  intros H. destruct (is_prefix_split _ _ H) as [b ->].
  rewrite silence_root. unfold cache_at, peek.
  rewrite find_update_below, <- address_lower.
  destruct (grown_found (listenersRoot w) (toLowerCase p)) as (m & -> & _).
  rewrite find_spread. destruct (find_node b m); simpl; [|reflexivity].
  apply spread_clear_cache.
Qed.

Lemma silence_listeners a :
  listeners_at a (listenersRoot (silence p w)) = listeners_at a (listenersRoot w).
Proof.
  rewrite silence_root. destruct (is_prefix (address p) a) eqn:H.
  - destruct (is_prefix_split _ _ H) as [b ->].
    rewrite <- (listeners_grown _ (listenersRoot w) (toLowerCase p)).
    unfold listeners_at, peek.
    rewrite find_update_below, find_node_app, <- address_lower.
    destruct (grown_found (listenersRoot w) (toLowerCase p)) as (m & -> & _).
    rewrite find_spread. destruct (find_node b m); simpl; [|reflexivity].
    apply spread_clear_listeners.
  - unfold listeners_at.
    rewrite peek_update_off by (auto || reflexivity). apply listeners_grown.
Qed.
End Silence.

Section IsStreaming.
Variables (p : TChannel) (w : World).

Lemma isStreaming_answer :
  fst (isStreaming p w)
  = match cache_at (address p) (listenersRoot w) with
    | Some _ => true
    | None => false
    end.
Proof. unfold isStreaming. open_traverse. now rewrite cache_grown. Qed.

Lemma isStreaming_world :
  snd (isStreaming p w) = set_root (grown (listenersRoot w) p) w.
Proof. unfold isStreaming. now open_traverse. Qed.
End IsStreaming.

(** ** Listener calls and the event loop *)

Lemma received_record h l info w :
  received h (record_call l info w)
  = received h w ++ (if same l h then [info] else []).
Proof.
  unfold received. simpl. rewrite filter_app, map_app. simpl.
  now destruct (same l h).
Qed.

Lemma received_ext h w w' : calls w = calls w' -> received h w = received h w'.
Proof. unfold received. now intros ->. Qed.

Lemma repeat_plus {A} (x : A) a b : repeat x (a + b) = repeat x a ++ repeat x b.
Proof. induction a; simpl; congruence. Qed.

Section Call.
Variable info : value.

Lemma call_timers l w : timers (call l info w) = timers w.
Proof.
  revert w. induction l as [id|k cp g IH]; intros w; simpl; [reflexivity|].
  now rewrite unsubscribe_timers, IH.
Qed.

Lemma call_closures l w : closures (call l info w) = closures w.
Proof.
  revert w. induction l as [id|k cp g IH]; intros w; simpl; [reflexivity|].
  unfold unsubscribe. open_traverse. now rewrite IH.
Qed.

Lemma call_cache l a w :
  cache_at a (listenersRoot (call l info w)) = cache_at a (listenersRoot w).
Proof.
  revert w. induction l as [id|k cp g IH]; intros w; simpl; [reflexivity|].
  now rewrite unsubscribe_cache, IH.
Qed.

Lemma call_received h l w :
  received h (call l info w) = received h w ++ repeat info (hits l h).
Proof.
  revert w. induction l as [id|k cp g IH]; intros w.
  - simpl call. rewrite received_record. simpl hits. rewrite Nat.add_0_r.
    now destruct (same (Handler id) h).
  - simpl call. simpl hits.
    rewrite (received_ext h _ _ (unsubscribe_calls _ _ _)), IH.
    rewrite received_record, repeat_plus, <- app_assoc.
    now destruct (same (Once k cp g) h).
Qed.

(** A call never adds a registration, and keeps lists duplicate-free. *)
Lemma call_listeners_incl l a w x :
  In x (listeners_at a (listenersRoot (call l info w))) ->
  In x (listeners_at a (listenersRoot w)).
Proof.
  revert w. induction l as [id|k cp g IH]; intros w; simpl; [auto|].
  intros H. apply (IH (record_call (Once k cp g) info w)).
  destruct (NodeRef_eq_dec a (address cp)) as [->|N].
  - rewrite unsubscribe_listeners in H. eapply remove_first_incl, H.
  - now rewrite unsubscribe_listeners_other in H.
Qed.

Lemma call_listeners_NoDup l a w :
  NoDup (listeners_at a (listenersRoot w)) ->
  NoDup (listeners_at a (listenersRoot (call l info w))).
Proof.
  revert w. induction l as [id|k cp g IH]; intros w; simpl; [auto|].
  intros H. specialize (IH (record_call (Once k cp g) info w) H).
  destruct (NodeRef_eq_dec a (address cp)) as [->|N].
  - rewrite unsubscribe_listeners. now apply remove_first_NoDup.
  - now rewrite unsubscribe_listeners_other.
Qed.
End Call.

Lemma task_payloads_ext root root' h t :
  (forall a, cache_at a root' = cache_at a root) ->
  task_payloads root' h t = task_payloads root h t.
Proof. intros E. destruct t; simpl; [reflexivity | now rewrite E]. Qed.

Section RunTask.
Variables (t : Task) (w : World).

Lemma run_task_timers : timers (run_task t w) = timers w.
Proof.
  destruct t as [l info|node g]; simpl; [apply call_timers|].
  destruct (cache_at node (listenersRoot w)); [apply call_timers | reflexivity].
Qed.

Lemma run_task_cache a :
  cache_at a (listenersRoot (run_task t w)) = cache_at a (listenersRoot w).
Proof.
  destruct t as [l info|node g]; simpl; [apply call_cache|].
  destruct (cache_at node (listenersRoot w)); [apply call_cache | reflexivity].
Qed.

Lemma run_task_received h :
  received h (run_task t w) = received h w ++ task_payloads (listenersRoot w) h t.
Proof.
  destruct t as [l info|node g]; simpl; [apply call_received|].
  destruct (cache_at node (listenersRoot w));
    [apply call_received | now rewrite app_nil_r].
Qed.

Lemma run_task_listeners_NoDup a :
  NoDup (listeners_at a (listenersRoot w)) ->
  NoDup (listeners_at a (listenersRoot (run_task t w))).
Proof.
  destruct t as [l info|node g]; simpl; [apply call_listeners_NoDup|].
  destruct (cache_at node (listenersRoot w)); [apply call_listeners_NoDup | auto].
Qed.
Lemma run_task_listeners_incl a x :
  In x (listeners_at a (listenersRoot (run_task t w))) ->
  In x (listeners_at a (listenersRoot w)).
Proof.
  destruct t as [l info|node g]; simpl; [apply call_listeners_incl|].
  destruct (cache_at node (listenersRoot w)); [apply call_listeners_incl | auto].
Qed.
End RunTask.

Lemma run_timers n w : List.length (timers w) = n -> timers (run n w) = [].
Proof.
  revert w. induction n as [|n IH]; intros w H; simpl.
  - now destruct (timers w).
  - unfold tick. destruct (timers w) as [|t ts] eqn:E; [discriminate|].
    apply IH. rewrite run_task_timers. simpl in *. lia.
Qed.

Lemma run_cache n w a :
  cache_at a (listenersRoot (run n w)) = cache_at a (listenersRoot w).
Proof.
  revert w. induction n as [|n IH]; intros w; simpl; [reflexivity|].
  unfold tick. destruct (timers w) as [|t ts]; [reflexivity|].
  now rewrite IH, run_task_cache.
Qed.

(** The event loop registers nobody. *)
Lemma run_listeners_incl n w a x :
  In x (listeners_at a (listenersRoot (run n w))) ->
  In x (listeners_at a (listenersRoot w)).
Proof.
  revert w. induction n as [|n IH]; intros w; simpl; [auto|].
  unfold tick. destruct (timers w) as [|t ts]; [auto|].
  intros H. apply IH in H.
  exact (run_task_listeners_incl t (set_timers ts w) a x H).
Qed.

Lemma run_received h n w :
  List.length (timers w) = n ->
  received h (run n w)
  = received h w ++ flat_map (task_payloads (listenersRoot w) h) (timers w).
Proof.
  revert w. induction n as [|n IH]; intros w H; simpl.
  - destruct (timers w); [now rewrite app_nil_r | discriminate].
  - unfold tick. destruct (timers w) as [|t ts] eqn:E; [discriminate|].
    rewrite IH, run_task_received, run_task_timers by
      (rewrite run_task_timers; simpl in *; lia).
    simpl. rewrite <- app_assoc. do 2 f_equal.
    apply flat_map_ext. intros t'. apply task_payloads_ext.
    intros a. exact (run_task_cache t (set_timers ts w) a).
Qed.

(** The event loop empties the queue. *)
Lemma settle_timers w : timers (settle w) = [].
Proof. now apply run_timers. Qed.

Lemma settle_cache w a :
  cache_at a (listenersRoot (settle w)) = cache_at a (listenersRoot w).
Proof. apply run_cache. Qed.

(** What the event loop delivers to [h]: the payloads of the pending tasks,
    in queue order, the replays reading the caches as they are now. *)
Lemma settle_received h w :
  received h (settle w)
  = received h w ++ flat_map (task_payloads (listenersRoot w) h) (timers w).
Proof. now apply run_received. Qed.

(** ** Reachable worlds and the registration invariant *)

Lemma subscribe_tidy p h w : tidy w -> tidy (subscribe p h w).
Proof.
  intros T a. destruct (NodeRef_eq_dec a (address p)) as [->|N].
  - rewrite subscribe_listeners. apply enlist_NoDup, T.
  - rewrite subscribe_listeners_other by exact N. apply T.
Qed.

Lemma unsubscribe_tidy p h w : tidy w -> tidy (unsubscribe p h w).
Proof.
  intros T a. destruct (NodeRef_eq_dec a (address p)) as [->|N].
  - rewrite unsubscribe_listeners. apply remove_first_NoDup, T.
  - rewrite unsubscribe_listeners_other by exact N. apply T.
Qed.

Lemma reachable_tidy w : reachable w -> tidy w.
Proof.
  induction 1 as [|p h w R IH|p h w R IH|p h w R IH|p w R IH|p w R IH
                  |v w w' R IH E|v w w' R IH E|w w' R IH E].
  - intros a. unfold listeners_at. rewrite peek_empty by reflexivity. constructor.
  - now apply subscribe_tidy.
  - now apply unsubscribe_tidy.
  - unfold listenOnce. apply subscribe_tidy. exact IH.
  - intros a. rewrite silence_listeners. apply IH.
  - intros a. rewrite isStreaming_world. simpl. rewrite listeners_grown. apply IH.
  - unfold broadcast in E. destruct (explicit v); [|discriminate].
    injection E as <-. intros a. rewrite broadcast_listeners. apply IH.
  - unfold stream in E. destruct (explicit v); [|discriminate].
    injection E as <-. intros a. rewrite stream_listeners. apply IH.
  - unfold tick in E. destruct (timers w) as [|t ts]; [discriminate|].
    injection E as <-. intros a. apply run_task_listeners_NoDup. apply IH.
Qed.

(** ** Who ends up calling whom *)

Lemma hits_depth l h : hits l h <> 0 -> depth h <= depth l.
Proof.
  induction l as [id|k cp g IH]; simpl.
  - destruct (same (Handler id) h) eqn:E; simpl; [|congruence].
    apply same_true in E. subst. auto.
  - destruct (same (Once k cp g) h) eqn:E; simpl.
    + apply same_true in E. subst. auto.
    + intros H. specialize (IH H). lia.
Qed.

(** A listener is called once when it is called: a [listenOnce] closure
    does not contain itself. *)
Lemma hits_self h : hits h h = 1.
Proof.
  destruct h as [id|k cp g]; simpl; rewrite same_refl; [reflexivity|].
  destruct (hits g (Once k cp g)) eqn:E; [reflexivity|].
  assert (depth (Once k cp g) <= depth g) by (apply hits_depth; congruence).
  simpl in *. lia.
Qed.

Lemma hits_once k cp h : hits (Once k cp h) h = 1.
Proof.
  simpl. rewrite hits_self.
  destruct (same (Once k cp h) h) eqn:E; [|reflexivity].
  apply same_true in E. apply (f_equal depth) in E. simpl in E. lia.
Qed.

Lemma payloads_of_deliveries root h ls info :
  flat_map (task_payloads root h) (deliveries ls info)
  = flat_map (fun l => repeat info (hits l h)) ls.
Proof. induction ls as [|l r IH]; simpl; congruence. Qed.

(** Among duplicate-free listeners of which only [h] itself calls [h], one
    delivery round calls [h] exactly once. *)
Lemma one_round_once h (info : value) ls :
  NoDup ls -> In h ls ->
  (forall l, In l ls -> l <> h -> hits l h = 0) ->
  flat_map (fun l => repeat info (hits l h)) ls = [info].
Proof.
  assert (Z : forall r, (forall l, In l r -> l <> h -> hits l h = 0) ->
                        ~ In h r ->
                        flat_map (fun l => repeat info (hits l h)) r = []).
  { induction r as [|l r IH]; intros F N; simpl; [reflexivity|].
    rewrite F.
    - simpl. apply IH.
      + intros l' I. apply F. now right.
      + intros I. apply N. now right.
    - now left.
    - intros ->. apply N. now left. }
  induction 1 as [|l r N D IH]; intros I F; simpl in *; [tauto|].
  destruct (TListener_eq_dec l h) as [->|NE].
  - rewrite hits_self, Z; [reflexivity | | exact N].
    intros l' I'. apply F. now right.
  - destruct I as [->|I]; [congruence|].
    rewrite F; [| now left | exact NE]. simpl. apply IH; [exact I|].
    intros l' I'. apply F. now right.
Qed.

Lemma enlist_incl ls h x : In x (enlist ls h) -> x <> h -> In x ls.
Proof.
  unfold enlist. destruct (includes ls h); simpl; [auto|].
  intros I N. apply in_app_or in I as [I|[->|[]]]; [exact I | congruence].
Qed.

Lemma explicit_message c v :
  explicit (message_of c v) = Some {| channel := c; payload := v |}.
Proof. reflexivity. Qed.

Lemma explicit_string s :
  explicit (Str s) = Some {| channel := "/"; payload := Str s |}.
Proof. reflexivity. Qed.

(** * The claims *)

(** ** C1 *)

(** C1 (evaluation of the code): after [listenOnce("c", h)] on a new radio
    and two [stream] calls to ["c"] in the same turn, the event loop calls
    [h] three times, with the payloads [y], [x], [y]: once from the replay
    check of [subscribe], which by then reads the second message, and once
    for each [stream], both having scheduled the wrapper before it could
    unsubscribe itself.  Only then is the wrapper off the list.  A handler
    registered with plain [subscribe] is called the same three times. *)
Theorem listenOnce_two_streams_same_turn (h : TListener) (x y : value) :
  let l := Once 0 "c" h in
  (exists w1 w2,
      stream (message_of "c" x) (listenOnce "c" h newAppRadio) = Some w1 /\
      stream (message_of "c" y) w1 = Some w2 /\
      timers w2 = [Replay ["c"] l; Deliver l x; Deliver l y] /\
      received h (settle w2) = [y; x; y] /\
      listeners_at ["c"] (listenersRoot (settle w2)) = []) /\
  (exists w1 w2,
      stream (message_of "c" x) (subscribe "c" h newAppRadio) = Some w1 /\
      stream (message_of "c" y) w1 = Some w2 /\
      received h (settle w2) = [y; x; y]).
Proof.
  intros l. split.
  - eexists. eexists. split; [reflexivity|]. split; [reflexivity|].
    split; [reflexivity|]. split.
    + rewrite settle_received.
      match goal with |- context [timers ?w] =>
        change (timers w) with [Replay ["c"] l; Deliver l x; Deliver l y];
        change (received h w) with (@nil value) end.
      cbn [flat_map task_payloads app].
      change (cache_at ["c"] _) with (Some {| channel := "c"; payload := y |}).
      cbn [payload]. subst l. now rewrite hits_once.
    + match goal with |- listeners_at _ (listenersRoot (settle ?w)) = _ =>
        set (w0 := set_timers [Deliver l x; Deliver l y] w);
        change (settle w) with (run 2 (unsubscribe "c" l (call h y (record_call l y w0))))
      end.
      assert (L0 : listeners_at ["c"] (listenersRoot (record_call l y w0)) = [l])
        by reflexivity.
      match goal with |- ?ls = [] =>
        destruct ls as [|x0 r] eqn:E; [reflexivity | exfalso];
        assert (I : In x0 ls) by (rewrite E; now left) end.
      apply run_listeners_incl in I.
      change ["c"] with (address "c") in I. rewrite unsubscribe_listeners in I.
      change (address "c") with ["c"] in I.
      assert (x0 = l) as ->.
      { apply remove_first_incl, call_listeners_incl in I.
        rewrite L0 in I. destruct I as [<-|[]]. reflexivity. }
      revert I. apply remove_first_gone, call_listeners_NoDup.
      rewrite L0. repeat constructor. auto.
  - eexists. eexists. split; [reflexivity|]. split; [reflexivity|].
    rewrite settle_received.
    match goal with |- context [timers ?w] =>
      change (timers w) with [Replay ["c"] h; Deliver h x; Deliver h y];
      change (received h w) with (@nil value) end.
    cbn [flat_map task_payloads app].
    change (cache_at ["c"] _) with (Some {| channel := "c"; payload := y |}).
    cbn [payload]. now rewrite hits_self.
Qed.

(** When the first delivery has run before the second [stream] is issued,
    the handler is called once. *)
Example listenOnce_streams_in_separate_turns :
  let h := Handler 7 in
  option_map (fun w2 => received h (settle w2))
    (match stream (message_of "c" (Num 1)) (settle (listenOnce "c" h newAppRadio)) with
     | Some w1 => stream (message_of "c" (Num 2)) (settle w1)
     | None => None
     end)
  = Some [Num 1].
Proof. vm_compute. reflexivity. Qed.

(** ** C2 *)

(** C2 (as stated, refuted): [isStreaming("x")] on a new radio changes the
    channel tree, it creates the node of ["x"]. *)
Lemma isStreaming_creates_node :
  find_node ["x"] (listenersRoot newAppRadio) = None /\
  find_node ["x"] (listenersRoot (snd (isStreaming "x" newAppRadio))) = Some emptyNode /\
  snd (isStreaming "x" newAppRadio) <> newAppRadio.
Proof.
  split; [reflexivity|]. split; [reflexivity|]. intros E.
  apply (f_equal (fun w => find_node ["x"] (listenersRoot w))) in E.
  discriminate E.
Qed.

(** C2 (amended): [isStreaming p] answers [true] exactly when the node that
    [p] denotes has a cached message.  The call creates the nodes of [p]
    that are missing, so the node exists afterwards; it changes no cache and
    no listener list at any address, schedules nothing and calls nobody; and
    when the node of [p] exists already the world is left as it was. *)
Theorem isStreaming_answer_and_frame (p : TChannel) (w : World) :
  let w' := snd (isStreaming p w) in
  (fst (isStreaming p w) = true <-> cache_at (address p) (listenersRoot w) <> None) /\
  find_node (address p) (listenersRoot w') <> None /\
  (forall a, cache_at a (listenersRoot w') = cache_at a (listenersRoot w)) /\
  (forall a, listeners_at a (listenersRoot w') = listeners_at a (listenersRoot w)) /\
  timers w' = timers w /\
  calls w' = calls w /\
  (find_node (address p) (listenersRoot w) <> None -> w' = w).
Proof.
  cbn zeta. rewrite isStreaming_answer, isStreaming_world. cbn [listenersRoot set_root
    timers calls]. repeat split.
  - destruct (cache_at (address p) (listenersRoot w)); congruence.
  - destruct (cache_at (address p) (listenersRoot w)); congruence.
  - destruct (grown_found (listenersRoot w) p) as (m & F & _). congruence.
  - intros a. apply cache_grown.
  - intros a. apply listeners_grown.
  - intros H. rewrite grown_existing by exact H. now destruct w.
Qed.

Lemma isStreaming_answer_and_frame_witness :
  snd (isStreaming "/" newAppRadio) = newAppRadio.
Proof.
  apply (isStreaming_answer_and_frame "/" newAppRadio). simpl. discriminate.
Defined.

(** ** C3 *)

Lemma quiet_step_cache node w w' :
  quiet_step node w w' ->
  cache_at node (listenersRoot w') = cache_at node (listenersRoot w).
Proof.
  intros [p h w0|p h w0|p h w0|p w0|v w0 w1 E|v m w0 w1 X D E|w0 w1 E].
  - apply subscribe_cache.
  - apply unsubscribe_cache.
  - unfold listenOnce. now rewrite subscribe_cache.
  - rewrite isStreaming_world. apply cache_grown.
  - unfold broadcast in E. destruct (explicit v); [|discriminate].
    injection E as <-. apply broadcast_cache.
  - unfold stream in E. rewrite X in E. injection E as <-.
    apply stream_cache_other. congruence.
  - unfold tick in E. destruct (timers w0) as [|t ts]; [discriminate|].
    injection E as <-. exact (run_task_cache t (set_timers ts w0) node).
Qed.

Lemma quiet_cache node w w' :
  quiet node w w' ->
  cache_at node (listenersRoot w') = cache_at node (listenersRoot w).
Proof.
  induction 1 as [w|w1 w2 w3 Q IH S]; [reflexivity|].
  now rewrite (quiet_step_cache _ _ _ S).
Qed.

(** C3 (as stated, refuted): after [stream] of [42] and then of [7] to
    ["a/b"], with no [silence] in between, a [subscribe] to ["a/b"] is
    replayed [7]; the handler never receives [42]. *)
Lemma later_stream_replaces_cached :
  exists w1 w2,
    stream (message_of "a/b" (Num 42)) newAppRadio = Some w1 /\
    stream (message_of "a/b" (Num 7)) w1 = Some w2 /\
    received (Handler 0) (settle (subscribe "a/b" (Handler 0) w2)) = [Num 7] /\
    ~ In (Num 42) (received (Handler 0) (settle (subscribe "a/b" (Handler 0) w2))).
Proof.
  eexists. eexists. split; [reflexivity|]. split; [reflexivity|].
  split; [reflexivity|]. vm_compute. intros [E|[]]. discriminate E.
Qed.

(** C3 (amended): after [stream] of payload [v] to channel [p] (the spec's
    ["a/b"] and [42] in particular), let any calls and timer turns follow
    that silence nothing and stream nothing to the node of [p].  A
    [subscribe p h] then calls nobody and appends the replay check for the
    node of [p] to the timer queue; that check, run in the world [subscribe]
    leaves, calls [h] with [v]; the event loop empties the queue, and the
    last call [h] has received by then carries [v]. *)
Theorem subscribe_after_stream_replays (p : TChannel) (v : value)
        (h : TListener) (w w1 w2 : World) :
  stream (message_of p v) w = Some w1 ->
  quiet (address p) w1 w2 ->
  let w3 := subscribe p h w2 in
  calls w3 = calls w2 /\
  timers w3 = timers w2 ++ [Replay (address p) h] /\
  run_task (Replay (address p) h) w3 = call h v w3 /\
  timers (settle w3) = [] /\
  exists earlier, received h (settle w3) = received h w2 ++ earlier ++ [v].
Proof.
  unfold stream. rewrite explicit_message. intros [= <-] Q.
  set (m := {| channel := p; payload := v |}) in *. cbn zeta.
  assert (C : cache_at (address p) (listenersRoot (subscribe p h w2)) = Some m).
  { rewrite subscribe_cache, (quiet_cache _ _ _ Q). apply (stream_cache m w). }
  split; [apply subscribe_calls|]. split; [apply subscribe_timers|].
  split; [simpl; now rewrite C|]. split; [apply settle_timers|].
  exists (flat_map (task_payloads (listenersRoot (subscribe p h w2)) h) (timers w2)).
  rewrite settle_received, subscribe_timers, flat_map_app.
  rewrite (received_ext h _ w2 (subscribe_calls _ _ _)).
  simpl. rewrite C, hits_self. reflexivity.
Qed.

Lemma subscribe_after_stream_replays_witness :
  let w1 := streamMessage {| channel := "A/B"; payload := Num 42 |} newAppRadio in
  let w2 := streamMessage {| channel := "a"; payload := Num 7 |}
              (subscribe "a/b" (Handler 1) w1) in
  exists earlier,
    received (Handler 0) (settle (subscribe "A/B" (Handler 0) w2))
    = received (Handler 0) w2 ++ earlier ++ [Num 42].
Proof.
  intros w1 w2.
  apply (subscribe_after_stream_replays "A/B" (Num 42) (Handler 0)
           newAppRadio w1 w2).
  - reflexivity.
  - eapply quiet_more; [eapply quiet_more; [apply quiet_none|]|].
    + apply quiet_subscribe.
    + apply (quiet_stream _ (message_of "a" (Num 7))
                          {| channel := "a"; payload := Num 7 |});
        [reflexivity | discriminate | reflexivity].
Defined.

(** ** C4 *)

(** C4 (as stated, refuted): the bare payload [42] makes both calls throw,
    while the explicit message for the root channel is accepted. *)
Lemma bare_number_throws :
  broadcast (Num 42) newAppRadio = None /\
  stream (Num 42) newAppRadio = None /\
  broadcast (message_of "/" (Num 42)) newAppRadio <> None /\
  stream (message_of "/" (Num 42)) newAppRadio <> None.
Proof. repeat split; discriminate. Qed.

(** C4 (amended): for every bare string [s], [broadcast s] and [stream s]
    are [broadcast] and [stream] of [{channel: "/", payload: s}]: the call
    does not throw, the deliveries go to the listeners of the root node, and
    [stream] caches the message on the root node. *)
Theorem bare_string_is_root_message (s : string) (w : World) :
  broadcast (Str s) w = broadcast (message_of "/" (Str s)) w /\
  stream (Str s) w = stream (message_of "/" (Str s)) w /\
  (exists w', broadcast (Str s) w = Some w' /\
     timers w' = timers w ++ deliveries (listeners_at [] (listenersRoot w)) (Str s)) /\
  (exists w', stream (Str s) w = Some w' /\
     timers w' = timers w ++ deliveries (listeners_at [] (listenersRoot w)) (Str s) /\
     cache_at [] (listenersRoot w') = Some {| channel := "/"; payload := Str s |}).
Proof.
  split; [reflexivity|]. split; [reflexivity|].
  unfold broadcast, stream. rewrite explicit_string.
  set (m := {| channel := "/"; payload := Str s |}). split.
  - eexists. split; [reflexivity|]. apply (broadcast_timers m w).
  - eexists. split; [reflexivity|]. split.
    + apply (stream_timers m w).
    + apply (stream_cache m w).
Qed.

(** ** C5 *)

(** C5: a call of [subscribe], [broadcast] or [stream] calls no listener:
    the call log after the call is the call log before it.  What the call
    leaves behind are timer tasks, run by later turns of the event loop. *)
Theorem no_listener_runs_during_call (w : World) :
  (forall p h, calls (subscribe p h w) = calls w) /\
  (forall message w', broadcast message w = Some w' -> calls w' = calls w) /\
  (forall message w', stream message w = Some w' -> calls w' = calls w).
Proof.
  split; [intros; apply subscribe_calls|]. unfold broadcast, stream.
  split; intros message w' E; destruct (explicit message); try discriminate;
    injection E as <-; [apply broadcast_calls | apply stream_calls].
Qed.

Lemma no_listener_runs_during_call_witness :
  let w := subscribe "a" (Handler 0) newAppRadio in
  calls (subscribe "a" (Handler 1) w) = calls w /\
  calls (broadcastMessage {| channel := "a"; payload := Num 1 |} w) = calls w /\
  calls (streamMessage {| channel := "a"; payload := Num 1 |} w) = calls w.
Proof.
  intros w.
  destruct (no_listener_runs_during_call w) as (S & B & T).
  split; [apply S|]. split.
  - apply (B (message_of "a" (Num 1))). reflexivity.
  - apply (T (message_of "a" (Num 1))). reflexivity.
Defined.

(** ** C6 *)

(** C6: [silence()], which is [silence("/")], leaves no cached message at
    any address of the tree, so [isStreaming] answers [false] for every
    channel.  [silence p] in general clears the cache at the addresses at or
    below the node of [p] and keeps it at all others; it changes no listener
    list, schedules nothing and calls nobody, so a [stream] that follows is
    delivered to the listeners that were registered on its channel. *)
Theorem silence_clears_caches_keeps_listeners (w : World) :
  (forall a, cache_at a (listenersRoot (silence "/" w)) = None) /\
  (forall q, fst (isStreaming q (silence "/" w)) = false) /\
  (forall p a, cache_at a (listenersRoot (silence p w))
               = if is_prefix (address p) a then None
                 else cache_at a (listenersRoot w)) /\
  (forall p a, listeners_at a (listenersRoot (silence p w))
               = listeners_at a (listenersRoot w)) /\
  (forall p, timers (silence p w) = timers w /\ calls (silence p w) = calls w) /\
  (forall p c v, exists w',
      stream (message_of c v) (silence p w) = Some w' /\
      timers w' = timers w ++ deliveries (listeners_at (address c) (listenersRoot w)) v /\
      fst (isStreaming c w') = true).
Proof.
  assert (R : forall a, cache_at a (listenersRoot (silence "/" w)) = None)
    by (intros a; now apply silence_cache_under).
  split; [exact R|]. split; [intros q; now rewrite isStreaming_answer, R|].
  split.
  { intros p a. destruct (is_prefix (address p) a) eqn:E.
    - now apply silence_cache_under.
    - now apply silence_cache_off. }
  split; [intros p a; apply silence_listeners|].
  split; [intros p; split; [apply silence_timers | apply silence_calls]|].
  intros p c v. unfold stream. rewrite explicit_message.
  eexists. split; [reflexivity|]. split.
  - rewrite stream_timers, silence_timers, silence_listeners. reflexivity.
  - rewrite isStreaming_answer.
    now rewrite (stream_cache {| channel := c; payload := v |}).
Qed.

(** ** C7 *)

(** C7: [broadcast] of any message changes the cached message at no address
    of the tree, so [isStreaming] answers after it what it answered before;
    the same holds for [subscribe], [unsubscribe], [listenOnce],
    [isStreaming] and the turns of the event loop: only [stream] sets a
    cache and only [silence] clears one. *)
Theorem broadcast_keeps_caches (w : World) :
  (forall x v, exists w',
      broadcast (message_of x v) w = Some w' /\
      (forall a, cache_at a (listenersRoot w') = cache_at a (listenersRoot w)) /\
      (forall q, fst (isStreaming q w') = fst (isStreaming q w))) /\
  (forall s, exists w',
      broadcast (Str s) w = Some w' /\
      forall a, cache_at a (listenersRoot w') = cache_at a (listenersRoot w)) /\
  (forall p h a, cache_at a (listenersRoot (subscribe p h w))
                 = cache_at a (listenersRoot w)) /\
  (forall p h a, cache_at a (listenersRoot (unsubscribe p h w))
                 = cache_at a (listenersRoot w)) /\
  (forall p h a, cache_at a (listenersRoot (listenOnce p h w))
                 = cache_at a (listenersRoot w)) /\
  (forall p a, cache_at a (listenersRoot (snd (isStreaming p w)))
               = cache_at a (listenersRoot w)) /\
  (forall n a, cache_at a (listenersRoot (run n w)) = cache_at a (listenersRoot w)).
Proof.
  split.
  { intros x v. unfold broadcast. rewrite explicit_message.
    eexists. split; [reflexivity|]. split.
    - intros a. apply broadcast_cache.
    - intros q. now rewrite !isStreaming_answer, broadcast_cache. }
  split.
  { intros s. unfold broadcast. rewrite explicit_string.
    eexists. split; [reflexivity|]. intros a. apply broadcast_cache. }
  split; [intros; apply subscribe_cache|].
  split; [intros; apply unsubscribe_cache|].
  split; [intros p h a; unfold listenOnce; now rewrite subscribe_cache|].
  split; [intros p a; rewrite isStreaming_world; apply cache_grown|].
  intros n a. apply run_cache.
Qed.

(** ** C8 *)

(** What follows holds whatever function the host's [toLowerCase] is. *)
Section AnyHost.
Context {host : Host}.

Lemma any_traverse root q : _traverseChannelTree root q = (grown root q, address q).
Proof.
  unfold grown, address, _traverseChannelTree.
  rewrite <- (walk_ref (tokens q) root). apply surjective_pairing.
Qed.

Ltac open_any :=
  rewrite any_traverse; cbn beta iota zeta; cbn [listenersRoot timers calls closures
    set_root set_timers setTimeout].

Lemma any_cache_grown a root q : cache_at a (grown root q) = cache_at a root.
Proof. apply (peek_walk currentInfo None); reflexivity. Qed.

Lemma any_listeners_grown a root q : listeners_at a (grown root q) = listeners_at a root.
Proof. apply (peek_walk listeners []); reflexivity. Qed.

Lemma any_found root q : exists m, find_node (address q) (grown root q) = Some m.
Proof. apply walk_found. Qed.

Lemma any_update_cache f root q a :
  (forall m, children (f m) = children m) ->
  (forall m, currentInfo (f m) = currentInfo m) ->
  cache_at a (update_at (address q) f (grown root q)) = cache_at a root.
Proof.
  intros K C. rewrite <- (any_cache_grown a root q). unfold cache_at.
  destruct (NodeRef_eq_dec a (address q)) as [->|N].
  - rewrite peek_update_at. unfold peek.
    destruct (find_node (address q) (grown root q)); [apply C | reflexivity].
  - now rewrite peek_update_other by (auto || reflexivity).
Qed.

Lemma any_unsubscribe_timers p h w : timers (unsubscribe p h w) = timers w.
Proof. unfold unsubscribe. now open_any. Qed.

Lemma any_unsubscribe_calls p h w : calls (unsubscribe p h w) = calls w.
Proof. unfold unsubscribe. now open_any. Qed.

Lemma any_unsubscribe_cache p h w a :
  cache_at a (listenersRoot (unsubscribe p h w)) = cache_at a (listenersRoot w).
Proof.
  unfold unsubscribe. open_any.
  apply any_update_cache; intros m; now destruct (indexOf (listeners m) h >=? 0)%Z.
Qed.

Lemma any_call_timers info l w : timers (call l info w) = timers w.
Proof.
  revert w. induction l as [id|k cp g IH]; intros w; simpl; [reflexivity|].
  now rewrite any_unsubscribe_timers, IH.
Qed.

Lemma any_call_cache info l a w :
  cache_at a (listenersRoot (call l info w)) = cache_at a (listenersRoot w).
Proof.
  revert w. induction l as [id|k cp g IH]; intros w; simpl; [reflexivity|].
  now rewrite any_unsubscribe_cache, IH.
Qed.

Lemma any_call_received info h l w :
  received h (call l info w) = received h w ++ repeat info (hits l h).
Proof.
  revert w. induction l as [id|k cp g IH]; intros w.
  - simpl call. rewrite received_record. simpl hits. rewrite Nat.add_0_r.
    now destruct (same (Handler id) h).
  - simpl call. simpl hits.
    rewrite (received_ext h _ _ (any_unsubscribe_calls _ _ _)), IH.
    rewrite received_record, repeat_plus, <- app_assoc.
    now destruct (same (Once k cp g) h).
Qed.

Lemma any_run_task_timers t w : timers (run_task t w) = timers w.
Proof.
  destruct t as [l info|node g]; simpl; [apply any_call_timers|].
  destruct (cache_at node (listenersRoot w)); [apply any_call_timers | reflexivity].
Qed.

Lemma any_run_task_cache t w a :
  cache_at a (listenersRoot (run_task t w)) = cache_at a (listenersRoot w).
Proof.
  destruct t as [l info|node g]; simpl; [apply any_call_cache|].
  destruct (cache_at node (listenersRoot w)); [apply any_call_cache | reflexivity].
Qed.

Lemma any_run_task_received t w h :
  received h (run_task t w) = received h w ++ task_payloads (listenersRoot w) h t.
Proof.
  destruct t as [l info|node g]; simpl; [apply any_call_received|].
  destruct (cache_at node (listenersRoot w));
    [apply any_call_received | now rewrite app_nil_r].
Qed.

Lemma any_run_received h n w :
  List.length (timers w) = n ->
  received h (run n w)
  = received h w ++ flat_map (task_payloads (listenersRoot w) h) (timers w).
Proof.
  revert w. induction n as [|n IH]; intros w H; simpl.
  - destruct (timers w); [now rewrite app_nil_r | discriminate].
  - unfold tick. destruct (timers w) as [|t ts] eqn:E; [discriminate|].
    rewrite IH, any_run_task_received, any_run_task_timers by
      (rewrite any_run_task_timers; simpl in *; lia).
    simpl. rewrite <- app_assoc. do 2 f_equal.
    apply flat_map_ext. intros t'. apply task_payloads_ext.
    intros a. exact (any_run_task_cache t (set_timers ts w) a).
Qed.

Lemma any_subscribe_In p h w :
  In h (listeners_at (address (toLowerCase p)) (listenersRoot (subscribe p h w))).
Proof.
  unfold subscribe. open_any. unfold listeners_at. rewrite peek_update_at.
  destruct (any_found (listenersRoot w) (toLowerCase p)) as [m ->].
  destruct (includes (listeners m) h) eqn:E; simpl.
  - now apply includes_In.
  - apply in_or_app. right. now left.
Qed.

Lemma any_broadcast_timers m w :
  timers (broadcastMessage m w)
  = timers w ++ deliveries (listeners_at (address (toLowerCase (channel m)))
                                         (listenersRoot w)) (payload m).
Proof. unfold broadcastMessage. open_any. now rewrite any_listeners_grown. Qed.

(** C8: whatever the host's [toLowerCase] is, when it maps [p1] and [p2]
    to the same string, which is what differing only by letter case comes
    to, they denote the same node, and [subscribe p1 h] followed by
    [broadcast] of [x] to [p2] schedules the delivery of [x] to [h], which
    the event loop carries out. *)
Theorem case_insensitive_delivery (p1 p2 : TChannel) (h : TListener) (x : value)
        (w : World) :
  toLowerCase p1 = toLowerCase p2 ->
  address p1 = address p2 /\
  snd (_traverseChannelTree (listenersRoot w) p1)
  = snd (_traverseChannelTree (listenersRoot w) p2) /\
  exists w',
    broadcast (message_of p2 x) (subscribe p1 h w) = Some w' /\
    In (Deliver h x) (timers w') /\
    In x (received h (settle w')).
Proof.
  intros E.
  assert (T : tokens p1 = tokens p2) by (unfold tokens; now rewrite E).
  split; [unfold address; now rewrite T|].
  split; [unfold _traverseChannelTree; now rewrite T|].
  assert (S : subscribe p1 h w = subscribe p2 h w)
    by (unfold subscribe; now rewrite E).
  unfold broadcast. rewrite explicit_message. eexists. split; [reflexivity|].
  set (m := {| channel := p2; payload := x |}).
  assert (I : In (Deliver h x) (timers (broadcastMessage m (subscribe p1 h w)))).
  { rewrite any_broadcast_timers. apply in_or_app. right.
    apply (in_map (fun l => Deliver l x)).
    cbn [channel m]. rewrite S. apply any_subscribe_In. }
  split; [exact I|].
  unfold settle. rewrite any_run_received by reflexivity.
  apply in_or_app. right.
  apply in_flat_map. exists (Deliver h x). split; [exact I|].
  simpl. rewrite hits_self. now left.
Qed.

End AnyHost.

(** On the host that folds the accented capitals, for the Latin-1 paths
    [Été/Ä] and [éTÉ/ä]. *)
Lemma case_insensitive_delivery_witness :
  let E := ascii_of_nat 201 in let e := ascii_of_nat 233 in
  let A := ascii_of_nat 196 in let a := ascii_of_nat 228 in
  let p1 := String E (String "t" (String e (String "/" (String A "")))) in
  let p2 := String e (String "T" (String E (String "/" (String a "")))) in
  exists w',
    @broadcast latin1_host (message_of p2 (Num 3))
               (@subscribe latin1_host p1 (Handler 0) newAppRadio) = Some w' /\
    In (Deliver (Handler 0) (Num 3)) (timers w') /\
    In (Num 3) (received (Handler 0) (@settle latin1_host w')).
Proof.
  intros E e A a p1 p2.
  apply (@case_insensitive_delivery latin1_host p1 p2). reflexivity.
Defined.

(** ** C9 *)

(** C9: in a reachable world no listener list has a duplicate.  There, a
    second [subscribe p h] changes no listener list; [h] is registered
    exactly once on the node of [p]; one [unsubscribe p h] leaves no
    registration of [h] on it; and a [subscribe p h] after that registers
    [h] again. *)
Theorem subscribe_is_idempotent (p : TChannel) (h : TListener) (w : World) :
  reachable w ->
  let w1 := subscribe p h w in
  let w2 := subscribe p h w1 in
  let at_p := fun w => listeners_at (address p) (listenersRoot w) in
  (forall a, NoDup (listeners_at a (listenersRoot w2))) /\
  (forall a, listeners_at a (listenersRoot w2) = listeners_at a (listenersRoot w1)) /\
  count_occ TListener_eq_dec (at_p w2) h = 1 /\
  count_occ TListener_eq_dec (at_p (unsubscribe p h w2)) h = 0 /\
  count_occ TListener_eq_dec (at_p (subscribe p h (unsubscribe p h w2))) h = 1.
Proof.
  intros R w1 w2 at_p.
  assert (T2 : tidy w2) by (do 2 apply subscribe_tidy; now apply reachable_tidy).
  assert (T3 : tidy (subscribe p h (unsubscribe p h w2)))
    by now apply subscribe_tidy, unsubscribe_tidy.
  split; [exact T2|]. split.
  { intros a. subst w2. destruct (NodeRef_eq_dec a (address p)) as [->|N].
    - subst w1. rewrite !subscribe_listeners. apply enlist_twice.
    - now rewrite subscribe_listeners_other. }
  split.
  { apply NoDup_count_occ'; [apply T2|].
    subst at_p w2. cbn beta. rewrite subscribe_listeners. apply enlist_In. }
  split.
  { apply count_occ_not_In. subst at_p. cbn beta.
    rewrite unsubscribe_listeners. apply remove_first_gone, T2. }
  apply NoDup_count_occ'; [apply T3|].
  subst at_p. cbn beta. rewrite subscribe_listeners. apply enlist_In.
Qed.

Lemma subscribe_is_idempotent_witness :
  let at_p := fun w => listeners_at ["a"; "b"] (listenersRoot w) in
  let w2 := subscribe "a/b" (Handler 0) (subscribe "a/b" (Handler 0) newAppRadio) in
  count_occ TListener_eq_dec (at_p w2) (Handler 0) = 1 /\
  count_occ TListener_eq_dec (at_p (unsubscribe "a/b" (Handler 0) w2)) (Handler 0) = 0.
Proof.
  destruct (subscribe_is_idempotent "a/b" (Handler 0) newAppRadio reach_new)
    as (_ & _ & One & Zero & _).
  split; [exact One | exact Zero].
Defined.

(** ** C10 *)

(** C10: [subscribe p h] followed in the same turn by [stream] of [v] to
    [p] calls nobody, and queues the replay check for [h] and, behind it,
    the live delivery to [h]; when they run each of them calls [h] with [v],
    the replay check because it reads the cache when it runs, after [stream]
    has set it.  In a reachable world with no timer pending, and with no
    other listener of the node being a [listenOnce] closure around [h], these
    are all the calls of [h]: the event loop calls it exactly twice. *)
Theorem subscribe_then_stream_delivers_twice (p : TChannel) (h : TListener)
        (v : value) (w : World) :
  exists w',
    stream (message_of p v) (subscribe p h w) = Some w' /\
    calls w' = calls w /\
    timers w' = timers w ++ Replay (address p) h
                  :: deliveries (listeners_at (address p) (listenersRoot w')) v /\
    In (Deliver h v) (timers w') /\
    task_payloads (listenersRoot w') h (Replay (address p) h) = [v] /\
    task_payloads (listenersRoot w') h (Deliver h v) = [v] /\
    (reachable w ->
     timers w = [] ->
     (forall l, In l (listeners_at (address p) (listenersRoot w)) ->
                l <> h -> hits l h = 0) ->
     received h (settle w') = received h w ++ [v; v]).
Proof.
  unfold stream. rewrite explicit_message. eexists. split; [reflexivity|].
  set (m := {| channel := p; payload := v |}).
  set (w1 := subscribe p h w). set (w' := streamMessage m w1).
  assert (K : calls w' = calls w)
    by (subst w' w1; now rewrite stream_calls, subscribe_calls).
  assert (L : listeners_at (address p) (listenersRoot w')
              = enlist (listeners_at (address p) (listenersRoot w)) h).
  { subst w' w1. now rewrite stream_listeners, subscribe_listeners. }
  assert (C : cache_at (address p) (listenersRoot w') = Some m)
    by apply (stream_cache m w1).
  assert (TS : timers w' = timers w ++ Replay (address p) h
                 :: deliveries (listeners_at (address p) (listenersRoot w')) v).
  { subst w'. rewrite stream_listeners, stream_timers.
    subst w1. rewrite subscribe_timers, <- app_assoc. reflexivity. }
  assert (P : task_payloads (listenersRoot w') h (Replay (address p) h) = [v]).
  { simpl. rewrite C, hits_self. reflexivity. }
  split; [exact K|]. split; [exact TS|]. split.
  { rewrite TS. apply in_or_app. right. right.
    apply (in_map (fun l => Deliver l v)). rewrite L. apply enlist_In. }
  split; [exact P|]. split; [simpl; now rewrite hits_self|].
  intros R Q F.
  assert (N : NoDup (listeners_at (address p) (listenersRoot w'))).
  { rewrite L. apply enlist_NoDup. now apply reachable_tidy. }
  rewrite settle_received, TS, Q, (received_ext h w' w K).
  cbn [flat_map app]. rewrite P, payloads_of_deliveries, one_round_once; auto.
  - rewrite L. apply enlist_In.
  - intros l I NE. apply F; [|exact NE]. rewrite L in I.
    now apply enlist_incl in I.
Qed.

Lemma subscribe_then_stream_delivers_twice_witness :
  exists w',
    stream (message_of "p" (Num 5)) (subscribe "p" (Handler 0) newAppRadio) = Some w' /\
    received (Handler 0) (settle w') = [Num 5; Num 5].
Proof.
  destruct (subscribe_then_stream_delivers_twice "p" (Handler 0) (Num 5) newAppRadio)
    as (w' & E & _ & _ & _ & _ & _ & Rcv).
  exists w'. split; [exact E|]. apply Rcv.
  - exact reach_new.
  - reflexivity.
  - simpl. intros l [].
Defined.


(** * Further properties of the code *)

(** ** Paths: [_traverseChannelTree] *)

Lemma split_slash_cons (s : string) : exists t ts, split_slash s = t :: ts.
Proof.
  induction s as [|c r (t & ts & E)]; simpl; [now eexists; eexists|].
  destruct (is_slash c); [now eexists; eexists|].
  rewrite E. now eexists; eexists.
Qed.

Lemma split_slash_app (p r : string) :
  split_slash (p ++ String "/" r)%string = split_slash p ++ split_slash r.
Proof.
  induction p as [|c p IH]; simpl; [reflexivity|].
  destruct (is_slash c); [now rewrite IH|].
  rewrite IH. destruct (split_slash_cons p) as (t & ts & ->). reflexivity.
Qed.

Lemma toLowerCase_app (p q : string) :
  toLowerCase (p ++ q)%string = (toLowerCase p ++ toLowerCase q)%string.
Proof.
  induction p as [|c p IH]; [reflexivity|].
  change (String (lower_char c) (toLowerCase (p ++ q)%string)
          = String (lower_char c) (toLowerCase p ++ toLowerCase q)%string).
  now rewrite IH.
Qed.

Lemma is_slash_lower (c : ascii) : is_slash (lower_char c) = is_slash c.
Proof. destruct c as [[] [] [] [] [] [] [] []]; reflexivity. Qed.

Lemma starts_with_slash_lower (p : string) :
  starts_with_slash (toLowerCase p) = starts_with_slash p.
Proof. destruct p; simpl; [reflexivity | apply is_slash_lower]. Qed.

Lemma walk_cut (ts rest : list string) (n : TChannelNode) :
  walk (ts ++ "" :: rest) n = walk ts n.
Proof.
  revert n. induction ts as [|t ts IH]; intros n; simpl; [reflexivity|].
  destruct (String.eqb t ""); [reflexivity|]. now rewrite IH.
Qed.

(** The tokens of [p/r]: those of [p] and then those of [r]; when [p] is
    empty the leading slash is dropped. *)
Lemma tokens_slash (p r : string) :
  tokens (p ++ String "/" r)%string
  = match p with
    | EmptyString => split_slash (toLowerCase r)
    | _ => tokens p ++ split_slash (toLowerCase r)
    end.
Proof.
  unfold tokens. rewrite !starts_with_slash_lower, toLowerCase_app.
  destruct p as [|c p]; [reflexivity|].
  change (toLowerCase (String "/" r)) with (String "/" (toLowerCase r)).
  rewrite split_slash_app.
  change (starts_with_slash (String c p ++ String "/" r)%string)
    with (starts_with_slash (String c p)).
  destruct (starts_with_slash (String c p)); [|reflexivity].
  destruct (split_slash_cons (toLowerCase (String c p))) as (t & ts & ->).
  reflexivity.
Qed.

Lemma traverse_cut (root : TChannelNode) (p r : string) (rest : list string) :
  split_slash (toLowerCase r) = "" :: rest ->
  _traverseChannelTree root (p ++ String "/" r)%string = _traverseChannelTree root p.
Proof.
  intros E. unfold _traverseChannelTree. rewrite tokens_slash, E.
  destruct p as [|c p]; [reflexivity | apply walk_cut].
Qed.

(** X1: a trailing slash, and a doubled slash with whatever follows it, are
    ignored: the path resolves like the part before, creating the same
    nodes and returning the same node. *)
Theorem traverse_ignores_after_empty_token (root : TChannelNode) (p q : string) :
  _traverseChannelTree root (p ++ "/")%string = _traverseChannelTree root p /\
  _traverseChannelTree root (p ++ "//" ++ q)%string = _traverseChannelTree root p.
Proof.
  split.
  - now apply (traverse_cut root p "" []).
  - apply (traverse_cut root p (String "/" q) (split_slash (toLowerCase q))).
    reflexivity.
Qed.

(** X2: a leading slash is optional: when [p] does not begin with a slash,
    [/p] resolves like [p]. *)
Theorem traverse_leading_slash (root : TChannelNode) (p : string) :
  starts_with_slash p = false ->
  _traverseChannelTree root (String "/" p) = _traverseChannelTree root p.
Proof.
  intros H. unfold _traverseChannelTree. f_equal.
  change (String "/" p) with ("" ++ String "/" p)%string.
  rewrite tokens_slash. unfold tokens.
  now rewrite starts_with_slash_lower, H.
Qed.

Lemma traverse_leading_slash_witness :
  _traverseChannelTree emptyNode "/news/sport" = _traverseChannelTree emptyNode "news/sport".
Proof. apply traverse_leading_slash. reflexivity. Defined.

Section AnyHostPaths.
Context {host : Host}.

(** X3: whatever the host's [toLowerCase] is, every operation that takes a
    path gives the same result for two paths that it maps to the same
    string, as paths that differ only by letter case are. *)
Theorem operations_ignore_case (p1 p2 : TChannel) (h : TListener) (v : value)
        (w : World) :
  toLowerCase p1 = toLowerCase p2 ->
  subscribe p1 h w = subscribe p2 h w /\
  unsubscribe p1 h w = unsubscribe p2 h w /\
  listenOnce p1 h w = listenOnce p2 h w /\
  silence p1 w = silence p2 w /\
  isStreaming p1 w = isStreaming p2 w /\
  broadcast (message_of p1 v) w = broadcast (message_of p2 v) w.
Proof.
  intros E.
  assert (T : forall root, _traverseChannelTree root p1 = _traverseChannelTree root p2)
    by (intros root; unfold _traverseChannelTree, tokens; now rewrite E).
  unfold subscribe, unsubscribe, listenOnce, silence, isStreaming, broadcast,
    broadcastMessage, subscribe.
  rewrite !explicit_message. cbn [channel payload]. rewrite E, T. auto 10.
Qed.

End AnyHostPaths.

Lemma operations_ignore_case_witness :
  let E := ascii_of_nat 201 in let e := ascii_of_nat 233 in
  @isStreaming latin1_host (String E "/b") newAppRadio
  = @isStreaming latin1_host (String e "/B") newAppRadio.
Proof.
  intros E e.
  apply (@operations_ignore_case latin1_host (String E "/b") (String e "/B")
           (Handler 0) Null newAppRadio).
  reflexivity.
Defined.

(** X4: resolving a path a second time finds the node the first time
    created: it returns the same node and changes nothing more. *)
Theorem traverse_twice (root : TChannelNode) (p : TChannel) :
  _traverseChannelTree (fst (_traverseChannelTree root p)) p
  = (fst (_traverseChannelTree root p), snd (_traverseChannelTree root p)) /\
  find_node (snd (_traverseChannelTree root p)) (fst (_traverseChannelTree root p))
  <> None.
Proof.
  destruct (grown_found root p) as (m & F & _).
  rewrite !traverse_split. cbn [fst snd]. rewrite F. split; [|discriminate].
  f_equal. apply grown_existing. rewrite F. discriminate.
Qed.

(** ** Nodes are never removed *)

Lemma walk_keeps (ts : list string) (a : NodeRef) (n : TChannelNode) :
  find_node a n <> None -> find_node a (fst (walk ts n)) <> None.
Proof.
  revert a n. induction ts as [|t ts IH]; intros a n H; simpl; [exact H|].
  destruct (String.eqb t ""); [exact H|].
  match goal with |- context [walk ts ?c] =>
    set (child := c);
    pose proof (fun a => IH a child) as IHc; destruct (walk ts child) as [c' r] end.
  simpl in *. destruct a as [|k a]; [discriminate|]. simpl in *.
  destruct (map_get k (children n)) as [c|] eqn:G; [|congruence].
  destruct (String.eqb k t) eqn:E.
  - apply String.eqb_eq in E. subst k. rewrite map_get_set_same.
    apply IHc. subst child. unfold map_has. rewrite G. simpl. now rewrite G.
  - rewrite map_get_set_other by exact E.
    unfold map_has. destruct (map_get t (children n)); simpl.
    + now rewrite G.
    + rewrite map_get_set_other by exact E. now rewrite G.
Qed.

Lemma update_keeps (ref a : NodeRef) f (n : TChannelNode) :
  (forall b m, find_node b m <> None -> find_node b (f m) <> None) ->
  find_node a n <> None -> find_node a (update_at ref f n) <> None.
Proof.
  intros Hf. revert a n. induction ref as [|k ref IH]; intros a n H; simpl; [auto|].
  destruct (map_get k (children n)) as [c|] eqn:G; [|exact H].
  destruct a as [|k' a]; [discriminate|]. simpl in *.
  destruct (String.eqb k' k) eqn:E.
  - apply String.eqb_eq in E. subst k'. rewrite map_get_set_same.
    rewrite G in H. now apply IH.
  - now rewrite map_get_set_other.
Qed.

Lemma own_fields_keep f :
  (forall m, children (f m) = children m) ->
  forall b m, find_node b m <> None -> find_node b (f m) <> None.
Proof.
  intros Hf [|k b] m H; [discriminate|]. simpl in *. now rewrite Hf.
Qed.

Lemma spread_keeps onNode b m :
  find_node b m <> None -> find_node b (spread_own m onNode) <> None.
Proof. rewrite find_spread. now destruct (find_node b m). Qed.

Lemma subscribe_keeps p h w a :
  find_node a (listenersRoot w) <> None ->
  find_node a (listenersRoot (subscribe p h w)) <> None.
Proof.
  intros H. unfold subscribe. open_traverse. apply update_keeps.
  - apply own_fields_keep. intros m. now destruct (includes (listeners m) h).
  - now apply walk_keeps.
Qed.

Lemma unsubscribe_keeps p h w a :
  find_node a (listenersRoot w) <> None ->
  find_node a (listenersRoot (unsubscribe p h w)) <> None.
Proof.
  intros H. unfold unsubscribe. open_traverse. apply update_keeps.
  - apply own_fields_keep. intros m. now destruct (indexOf (listeners m) h >=? 0)%Z.
  - now apply walk_keeps.
Qed.

Lemma call_keeps info l w a :
  find_node a (listenersRoot w) <> None ->
  find_node a (listenersRoot (call l info w)) <> None.
Proof.
  revert w. induction l as [id|k cp g IH]; intros w H; simpl; [exact H|].
  apply unsubscribe_keeps, IH. exact H.
Qed.

Lemma step_keeps w w' a :
  step w w' ->
  find_node a (listenersRoot w) <> None -> find_node a (listenersRoot w') <> None.
Proof.
  intros S H. destruct S as [p h w|p h w|p h w|p w|p w|v w w' E|v w w' E|w w' E].
  - now apply subscribe_keeps.
  - now apply unsubscribe_keeps.
  - unfold listenOnce. now apply subscribe_keeps.
  - unfold silence. open_traverse. apply update_keeps.
    + intros b m. rewrite spreadFrom_clear. apply spread_keeps.
    + now apply walk_keeps.
  - rewrite isStreaming_world. now apply walk_keeps.
  - unfold broadcast in E. destruct (explicit v); [|discriminate].
    injection E as <-. rewrite broadcast_root. now apply walk_keeps.
  - unfold stream in E. destruct (explicit v); [|discriminate].
    injection E as <-. unfold streamMessage. open_traverse. apply update_keeps.
    + now apply own_fields_keep.
    + now apply walk_keeps.
  - unfold tick in E. destruct (timers w) as [|t ts]; [discriminate|].
    injection E as <-. destruct t as [l info|node g]; simpl.
    + now apply call_keeps.
    + destruct (cache_at node (listenersRoot w)); [now apply call_keeps | exact H].
Qed.

(** X5: a node that exists stays: after any number of operations and turns
    of the event loop, every address that led to a node still does. *)
Theorem nodes_persist (w w' : World) (a : NodeRef) :
  steps w w' ->
  find_node a (listenersRoot w) <> None ->
  find_node a (listenersRoot w') <> None.
Proof.
  induction 1 as [w|w1 w2 w3 S IH T]; intros H; [exact H|].
  eapply step_keeps; [exact T | now apply IH].
Qed.

Lemma nodes_persist_witness :
  find_node ["a"; "b"]
    (listenersRoot (silence "/" (unsubscribe "a/b" (Handler 0)
                                   (subscribe "a/b" (Handler 0) newAppRadio))))
  <> None.
Proof.
  apply (nodes_persist (subscribe "a/b" (Handler 0) newAppRadio)).
  - eapply steps_more; [eapply steps_more; [apply steps_none|]|].
    + apply step_unsubscribe.
    + apply step_silence.
  - discriminate.
Defined.

(** ** The subtree walker: [_spreadOnSubtree] *)




(** The children that the action puts into a node are walked too, as line 5
    reads [node.children] after the action has run. *)
Example spread_follows_new_children :
  let fresh := mkNode [] None [Handler 1] in
  let onNode n := match listeners n with
                  | [Handler 0] => mkNode [("new", fresh)] None []
                  | [Handler 1] => set_listeners [Handler 2] n
                  | _ => n
                  end in
  _spreadOnSubtree 2 (mkNode [] None [Handler 0]) onNode
  = Some (mkNode [("new", mkNode [] None [Handler 2])] None []) /\
  _spreadOnSubtree 1 (mkNode [] None [Handler 0]) onNode = None.
Proof. split; reflexivity. Qed.

(** ** The shape of the tree *)

Section KeyFacts.
Context {V : Type}.
Implicit Types (m : list (string * V)) (k : string) (v : V).

Lemma map_get_In k m : map_get k m <> None <-> In k (map fst m).
Proof.
  induction m as [|[k' v'] r IH]; simpl; [tauto|].
  destruct (String.eqb k k') eqn:E.
  - apply String.eqb_eq in E. subst. split; [auto | discriminate].
  - apply String.eqb_neq in E. rewrite IH. split; [auto | intros [->|]; tauto].
Qed.

Lemma keys_set_present k v m :
  map_get k m <> None -> map fst (map_set k v m) = map fst m.
Proof.
  induction m as [|[k' v'] r IH]; simpl; [congruence|].
  destruct (String.eqb k k') eqn:E; simpl.
  - apply String.eqb_eq in E. now subst.
  - intros H. now rewrite IH.
Qed.

Lemma keys_set_absent k v m :
  map_get k m = None -> map fst (map_set k v m) = map fst m ++ [k].
Proof.
  induction m as [|[k' v'] r IH]; simpl; [reflexivity|].
  destruct (String.eqb k k') eqn:E; simpl; [discriminate|].
  intros H. now rewrite IH.
Qed.

Lemma values_set (P : V -> Prop) k v m :
  P v -> Forall (fun kc => P (snd kc)) m ->
  Forall (fun kc => P (snd kc)) (map_set k v m).
Proof.
  intros Hv. induction 1 as [|[k' v'] r H F IH]; simpl.
  - now repeat constructor.
  - destruct (String.eqb k k'); constructor; auto.
Qed.

Lemma values_get (P : V -> Prop) k v m :
  Forall (fun kc => P (snd kc)) m -> map_get k m = Some v -> P v.
Proof.
  induction 1 as [|[k' v'] r H F IH]; simpl; [discriminate|].
  destruct (String.eqb k k'); [now intros [= <-] | exact IH].
Qed.
End KeyFacts.

Lemma split_slash_tokens (s : string) :
  toLowerCase s = s -> Forall token_ok (split_slash s).
Proof.
  unfold token_ok. change (@toLowerCase ascii_host) with ascii_toLowerCase.
  induction s as [|c r IH]; simpl; intros L.
  - repeat constructor.
  - injection L as Lc Lr. specialize (IH Lr).
    destruct (is_slash c) eqn:E.
    + constructor; [now split | exact IH].
    + destruct (split_slash r) as [|t ts].
      * repeat constructor; simpl; [now rewrite Lc | now rewrite E].
      * inversion IH as [|? ? [Lt St] F]; subst. constructor; [|exact F].
        split; simpl; [now rewrite Lc, Lt | now rewrite E, St].
Qed.

Lemma tokens_ok (p : TChannel) : Forall token_ok (tokens p).
Proof.
  unfold tokens.
  pose proof (split_slash_tokens _ (toLowerCase_idem p)) as F.
  destruct (starts_with_slash (toLowerCase p)); [|exact F].
  destruct F; [constructor | assumption].
Qed.

Lemma well_keyed_empty : well_keyed emptyNode.
Proof. constructor; constructor. Qed.

Lemma children_set_ok k c (ch : list (string * TChannelNode)) :
  good_key k -> well_keyed c ->
  NoDup (map fst ch) -> Forall good_key (map fst ch) ->
  Forall (fun kc => well_keyed (snd kc)) ch ->
  NoDup (map fst (map_set k c ch)) /\
  Forall good_key (map fst (map_set k c ch)) /\
  Forall (fun kc => well_keyed (snd kc)) (map_set k c ch).
Proof.
  intros Gk Wc N G W. split; [|split; [|now apply values_set]].
  - destruct (map_get k ch) eqn:E.
    + rewrite keys_set_present by congruence. exact N.
    + rewrite keys_set_absent by exact E.
      apply NoDup_rev in N. rewrite <- (rev_involutive (_ ++ _)).
      apply NoDup_rev. rewrite rev_app_distr. simpl. constructor; [|exact N].
      rewrite <- in_rev, <- map_get_In. now rewrite E.
  - destruct (map_get k ch) eqn:E.
    + rewrite keys_set_present by congruence. exact G.
    + rewrite keys_set_absent by exact E. apply Forall_app. auto.
Qed.

Lemma walk_well_keyed (ts : list string) (n : TChannelNode) :
  Forall token_ok ts -> well_keyed n -> well_keyed (fst (walk ts n)).
Proof.
  intros F. revert n. induction F as [|t ts [Lt St] F IH]; intros n W; simpl; [exact W|].
  destruct (String.eqb t "") eqn:E; [exact W|].
  apply String.eqb_neq in E.
  assert (Gt : good_key t) by now repeat split.
  destruct W as [ch ci ls N G Wc]. cbn [children].
  set (ch2 := if negb (map_has t ch) then map_set t emptyNode ch else ch).
  assert (O2 : NoDup (map fst ch2) /\ Forall good_key (map fst ch2) /\
               Forall (fun kc => well_keyed (snd kc)) ch2).
  { subst ch2. destruct (map_has t ch); simpl; [auto|].
    apply children_set_ok; auto using well_keyed_empty. }
  destruct O2 as (N2 & G2 & W2).
  set (child := match map_get t ch2 with Some c => c | None => emptyNode end).
  assert (Wchild : well_keyed child).
  { subst child. destruct (map_get t ch2) eqn:M; [|apply well_keyed_empty].
    eapply values_get; [exact W2 | exact M]. }
  specialize (IH child Wchild). destruct (walk ts child) as [c' r]. simpl in *.
  destruct (children_set_ok t c' ch2 Gt IH N2 G2 W2) as (N3 & G3 & W3).
  now constructor.
Qed.

Lemma update_well_keyed (ref : NodeRef) f (n : TChannelNode) :
  (forall m, well_keyed m -> well_keyed (f m)) ->
  well_keyed n -> well_keyed (update_at ref f n).
Proof.
  intros Hf. revert n. induction ref as [|k ref IH]; intros n W; simpl; [auto|].
  destruct (map_get k (children n)) as [c|] eqn:M; [|exact W].
  destruct W as [ch ci ls N G Wc]. cbn [children] in *.
  assert (Wk : well_keyed c) by (eapply values_get; eauto).
  unfold set_children. cbn [currentInfo listeners]. constructor.
  - rewrite keys_set_present by congruence. exact N.
  - rewrite keys_set_present by congruence. exact G.
  - apply values_set; auto.
Qed.

Lemma own_fields_well_keyed f :
  (forall m, children (f m) = children m) ->
  forall m, well_keyed m -> well_keyed (f m).
Proof.
  intros Hf m W. specialize (Hf m). destruct W as [ch ci ls N G Wc].
  destruct (f (mkNode ch ci ls)) as [ch' ci' ls']. simpl in Hf. subst ch'.
  now constructor.
Qed.

Lemma spread_well_keyed onNode (n : TChannelNode) :
  well_keyed n -> well_keyed (spread_own n onNode).
Proof.
  induction n as [ch ci ls IH] using TChannelNode_nested_ind.
  intros W. inversion W as [? ? ? N G Wc]; subst. simpl.
  assert (K : map fst (map (fun kc : string * TChannelNode =>
                              let '(k, child) := kc in
                              (k, spread_own child onNode)) ch) = map fst ch).
  { rewrite map_map. apply map_ext. now intros [k c]. }
  constructor; rewrite ?K; auto.
  apply Forall_map. rewrite Forall_forall in *.
  intros [k c] I. simpl. apply (IH _ I), (Wc _ I).
Qed.

Lemma subscribe_well_keyed p h w :
  well_keyed (listenersRoot w) -> well_keyed (listenersRoot (subscribe p h w)).
Proof.
  intros W. unfold subscribe. open_traverse. apply update_well_keyed.
  - apply own_fields_well_keyed. intros m. now destruct (includes (listeners m) h).
  - apply walk_well_keyed; [apply tokens_ok | exact W].
Qed.

Lemma unsubscribe_well_keyed p h w :
  well_keyed (listenersRoot w) -> well_keyed (listenersRoot (unsubscribe p h w)).
Proof.
  intros W. unfold unsubscribe. open_traverse. apply update_well_keyed.
  - apply own_fields_well_keyed. intros m.
    now destruct (indexOf (listeners m) h >=? 0)%Z.
  - apply walk_well_keyed; [apply tokens_ok | exact W].
Qed.

Lemma call_well_keyed info l w :
  well_keyed (listenersRoot w) -> well_keyed (listenersRoot (call l info w)).
Proof.
  revert w. induction l as [id|k cp g IH]; intros w W; simpl; [exact W|].
  apply unsubscribe_well_keyed, IH. exact W.
Qed.

(** X6: in every reachable world the tree is well formed: in every
    [children] map the keys are pairwise different, none is empty, none has
    an upper-case letter or a slash; and no node lists a listener twice. *)
Theorem reachable_tree_well_formed (w : World) :
  reachable w ->
  well_keyed (listenersRoot w) /\
  forall a, NoDup (listeners_at a (listenersRoot w)).
Proof.
  intros R. split; [|now apply reachable_tidy].
  induction R as [|p h w R IH|p h w R IH|p h w R IH|p w R IH|p w R IH
                  |v w w' R IH E|v w w' R IH E|w w' R IH E].
  - apply well_keyed_empty.
  - now apply subscribe_well_keyed.
  - now apply unsubscribe_well_keyed.
  - unfold listenOnce. now apply subscribe_well_keyed.
  - unfold silence. open_traverse. apply update_well_keyed.
    + intros m. rewrite spreadFrom_clear. apply spread_well_keyed.
    + apply walk_well_keyed; [apply tokens_ok | exact IH].
  - rewrite isStreaming_world. apply walk_well_keyed; [apply tokens_ok | exact IH].
  - unfold broadcast in E. destruct (explicit v); [|discriminate].
    injection E as <-. rewrite broadcast_root.
    apply walk_well_keyed; [apply tokens_ok | exact IH].
  - unfold stream in E. destruct (explicit v); [|discriminate].
    injection E as <-. unfold streamMessage. open_traverse.
    apply update_well_keyed; [now apply own_fields_well_keyed|].
    apply walk_well_keyed; [apply tokens_ok | exact IH].
  - unfold tick in E. destruct (timers w) as [|t ts]; [discriminate|].
    injection E as <-. destruct t as [l info|node g]; simpl.
    + now apply call_well_keyed.
    + destruct (cache_at node (listenersRoot w)); [now apply call_well_keyed | exact IH].
Qed.

Lemma reachable_tree_well_formed_witness :
  well_keyed (listenersRoot (subscribe "News//x" (Handler 0) newAppRadio)).
Proof.
  apply reachable_tree_well_formed. apply reach_subscribe, reach_new.
Defined.

(** ** [unsubscribe] *)

Lemma update_at_fixed (ref : NodeRef) f (n m : TChannelNode) :
  find_node ref n = Some m -> f m = m -> update_at ref f n = n.
Proof.
  revert n. induction ref as [|k ref IH]; intros n F E; simpl in *.
  - injection F as ->. exact E.
  - destruct (map_get k (children n)) as [c|] eqn:G; [|reflexivity].
    rewrite (IH c F E), (map_set_get _ _ _ G). now destruct n.
Qed.

Lemma indexOf_absent ls h : ~ In h ls -> indexOf ls h = (-1)%Z.
Proof.
  induction ls as [|l r IH]; simpl; [reflexivity|]. intros N.
  destruct (same l h) eqn:E.
  - apply same_true in E. subst. tauto.
  - rewrite IH by tauto. reflexivity.
Qed.

Lemma remove_first_split h l1 l2 :
  ~ In h l1 -> remove_first h (l1 ++ h :: l2) = l1 ++ l2.
Proof.
  induction l1 as [|l r IH]; simpl; intros N.
  - now rewrite same_refl.
  - destruct (same l h) eqn:E.
    + apply same_true in E. subst. tauto.
    + f_equal. apply IH. tauto.
Qed.

(** X8: [unsubscribe] of a handler that is not registered on the node of
    the path changes no listener list and no cache, schedules nothing and
    calls nobody; when the node exists, it changes nothing at all. *)
Theorem unsubscribe_unregistered (p : TChannel) (h : TListener) (w : World) :
  ~ In h (listeners_at (address p) (listenersRoot w)) ->
  (forall a, listeners_at a (listenersRoot (unsubscribe p h w))
             = listeners_at a (listenersRoot w)) /\
  (forall a, cache_at a (listenersRoot (unsubscribe p h w))
             = cache_at a (listenersRoot w)) /\
  timers (unsubscribe p h w) = timers w /\
  calls (unsubscribe p h w) = calls w /\
  (find_node (address p) (listenersRoot w) <> None -> unsubscribe p h w = w).
Proof.
  intros N. split; [|split; [|split; [|split]]].
  - intros a. destruct (NodeRef_eq_dec a (address p)) as [->|D].
    + rewrite unsubscribe_listeners. now apply remove_first_absent.
    + now apply unsubscribe_listeners_other.
  - intros a. apply unsubscribe_cache.
  - apply unsubscribe_timers.
  - apply unsubscribe_calls.
  - intros E. unfold unsubscribe. open_traverse. rewrite address_lower.
    rewrite grown_existing by now rewrite address_lower.
    destruct (find_node (address p) (listenersRoot w)) as [m|] eqn:F; [|congruence].
    rewrite (update_at_fixed _ _ _ m F); [now destruct w|].
    assert (L : listeners m = listeners_at (address p) (listenersRoot w))
      by (unfold listeners_at, peek; now rewrite F).
    rewrite indexOf_absent by now rewrite L. reflexivity.
Qed.

Lemma unsubscribe_unregistered_witness :
  unsubscribe "/" (Handler 3) newAppRadio = newAppRadio.
Proof.
  apply (unsubscribe_unregistered "/" (Handler 3) newAppRadio).
  - simpl. tauto.
  - discriminate.
Defined.

(** X9: [unsubscribe] takes the first registration of the handler off the
    list of the node of the path and keeps the others in their order; the
    lists of all other nodes stay as they are. *)
Theorem unsubscribe_removes_first (p : TChannel) (h : TListener) (w : World)
        (before after : list TListener) :
  listeners_at (address p) (listenersRoot w) = before ++ h :: after ->
  ~ In h before ->
  listeners_at (address p) (listenersRoot (unsubscribe p h w)) = before ++ after /\
  forall a, a <> address p ->
            listeners_at a (listenersRoot (unsubscribe p h w))
            = listeners_at a (listenersRoot w).
Proof.
  intros E N. split.
  - rewrite unsubscribe_listeners, E. now apply remove_first_split.
  - intros a D. now apply unsubscribe_listeners_other.
Qed.

Lemma unsubscribe_removes_first_witness :
  let w := subscribe "a" (Handler 2) (subscribe "a" (Handler 1)
             (subscribe "a" (Handler 0) newAppRadio)) in
  listeners_at ["a"] (listenersRoot (unsubscribe "A" (Handler 1) w))
  = [Handler 0; Handler 2].
Proof.
  intros w.
  apply (unsubscribe_removes_first "A" (Handler 1) w [Handler 0] [Handler 2]).
  - reflexivity.
  - simpl. intros [E|[]]. discriminate E.
Defined.

(** X10: [subscribe] of a handler that is not registered on the node appends
    it to the node's list, behind the listeners already there, and
    [unsubscribe] of it afterwards gives back the listener list of every
    node as it was. *)
Theorem subscribe_unsubscribe_round_trip (p : TChannel) (h : TListener) (w : World) :
  ~ In h (listeners_at (address p) (listenersRoot w)) ->
  listeners_at (address p) (listenersRoot (subscribe p h w))
  = listeners_at (address p) (listenersRoot w) ++ [h] /\
  forall a, listeners_at a (listenersRoot (unsubscribe p h (subscribe p h w)))
            = listeners_at a (listenersRoot w).
Proof.
  intros N.
  assert (S : listeners_at (address p) (listenersRoot (subscribe p h w))
              = listeners_at (address p) (listenersRoot w) ++ [h]).
  { rewrite subscribe_listeners. unfold enlist.
    apply includes_not_In in N. now rewrite N. }
  split; [exact S|]. intros a.
  destruct (NodeRef_eq_dec a (address p)) as [->|D].
  - rewrite unsubscribe_listeners, S, remove_first_split by exact N.
    apply app_nil_r.
  - rewrite unsubscribe_listeners_other, subscribe_listeners_other by exact D.
    reflexivity.
Qed.

Lemma subscribe_unsubscribe_round_trip_witness :
  listeners_at ["x"]
    (listenersRoot (unsubscribe "x" (Handler 1) (subscribe "x" (Handler 1) newAppRadio)))
  = [].
Proof.
  apply (subscribe_unsubscribe_round_trip "x" (Handler 1) newAppRadio).
  simpl. tauto.
Defined.

(** ** The event loop *)

Lemma call_calls info l w : calls (call l info w) = calls w ++ trace l info.
Proof.
  revert w. induction l as [id|k cp g IH]; intros w; simpl; [reflexivity|].
  rewrite unsubscribe_calls, IH. simpl. now rewrite <- app_assoc.
Qed.

Lemma run_task_calls t w :
  calls (run_task t w) = calls w ++ task_trace (listenersRoot w) t.
Proof.
  destruct t as [l info|node g]; simpl; [apply call_calls|].
  destruct (cache_at node (listenersRoot w)); [apply call_calls | now rewrite app_nil_r].
Qed.

Lemma task_trace_ext root root' t :
  (forall a, cache_at a root' = cache_at a root) ->
  task_trace root' t = task_trace root t.
Proof. intros E. destruct t; simpl; [reflexivity | now rewrite E]. Qed.

Lemma run_calls n w :
  List.length (timers w) = n ->
  calls (run n w) = calls w ++ flat_map (task_trace (listenersRoot w)) (timers w).
Proof.
  revert w. induction n as [|n IH]; intros w H; simpl.
  - destruct (timers w); [now rewrite app_nil_r | discriminate].
  - unfold tick. destruct (timers w) as [|t ts] eqn:E; [discriminate|].
    rewrite IH, run_task_calls, run_task_timers by
      (rewrite run_task_timers; simpl in *; lia).
    simpl. rewrite <- app_assoc. do 2 f_equal.
    apply flat_map_ext. intros t'. apply task_trace_ext.
    intros a. exact (run_task_cache t (set_timers ts w) a).
Qed.

Lemma run_listeners_NoDup n w :
  tidy w -> tidy (run n w).
Proof.
  revert w. induction n as [|n IH]; intros w T; simpl; [exact T|].
  unfold tick. destruct (timers w) as [|t ts]; [exact T|].
  apply IH. intros a. apply run_task_listeners_NoDup. apply T.
Qed.

Lemma reachable_run n w : reachable w -> reachable (run n w).
Proof.
  revert w. induction n as [|n IH]; intros w R; simpl; [exact R|].
  destruct (tick w) as [w'|] eqn:E; [|exact R].
  apply IH. eapply reach_tick; eauto.
Qed.

(** X11: the event loop runs the pending callbacks oldest first, each once,
    and ends with an empty queue.  The calls it makes are those of the
    callbacks in queue order, a replay check calling its handler when its
    node has a cached message as the loop starts; no callback changes a
    cache or adds a registration. *)
Theorem event_loop_runs_queue_in_order (w : World) :
  timers (settle w) = [] /\
  calls (settle w) = calls w ++ flat_map (task_trace (listenersRoot w)) (timers w) /\
  (forall a, cache_at a (listenersRoot (settle w)) = cache_at a (listenersRoot w)) /\
  (forall a l, In l (listeners_at a (listenersRoot (settle w))) ->
               In l (listeners_at a (listenersRoot w))).
Proof.
  split; [apply settle_timers|]. split; [now apply run_calls|].
  split; [intros a; apply settle_cache|].
  intros a l. apply run_listeners_incl.
Qed.

Lemma trace_of_deliveries root ls info :
  flat_map (task_trace root) (deliveries ls info)
  = flat_map (fun l => trace l info) ls.
Proof. induction ls as [|l r IH]; simpl; congruence. Qed.

Lemma no_hits h (info : value) ls :
  (forall l, In l ls -> hits l h = 0) ->
  flat_map (fun l => repeat info (hits l h)) ls = [].
Proof.
  induction ls as [|l r IH]; intros F; simpl; [reflexivity|].
  rewrite F by now left. simpl. apply IH. intros l' I. apply F. now right.
Qed.

(** X12: [broadcast] reaches the listeners of the node of its channel, in
    the order in which they were registered, and nobody else: the event loop
    makes the calls it would have made without the broadcast and then those
    of the node's listeners in list order.  A handler that no listener of
    that very node reaches receives nothing from it, wherever else it is
    registered. *)
Theorem broadcast_exact_node_in_order (c : TChannel) (v : value) (w : World) :
  exists w',
    broadcast (message_of c v) w = Some w' /\
    calls (settle w')
    = calls (settle w)
        ++ flat_map (fun l => trace l v) (listeners_at (address c) (listenersRoot w)) /\
    forall h,
      (forall l, In l (listeners_at (address c) (listenersRoot w)) -> hits l h = 0) ->
      received h (settle w') = received h (settle w).
Proof.
  unfold broadcast. rewrite explicit_message. eexists. split; [reflexivity|].
  set (m := {| channel := c; payload := v |}).
  assert (C : forall a, cache_at a (listenersRoot (broadcastMessage m w))
                        = cache_at a (listenersRoot w))
    by (intros a; apply broadcast_cache).
  split.
  - unfold settle. rewrite !run_calls by reflexivity.
    rewrite broadcast_calls, broadcast_timers, flat_map_app, trace_of_deliveries.
    rewrite <- app_assoc. do 2 f_equal.
    apply flat_map_ext. intros t. now apply task_trace_ext.
  - intros h F. rewrite !settle_received.
    rewrite (received_ext h _ w (broadcast_calls m w)).
    rewrite broadcast_timers, flat_map_app, payloads_of_deliveries.
    cbn [channel payload m]. rewrite (no_hits h v _ F), app_nil_r. f_equal.
    apply flat_map_ext. intros t. now apply task_payloads_ext.
Qed.

Lemma broadcast_exact_node_in_order_witness :
  let w := settle (subscribe "a" (Handler 0) newAppRadio) in
  exists w',
    broadcast (message_of "a/b" (Num 1)) w = Some w' /\
    received (Handler 0) (settle w') = [].
Proof.
  intros w.
  destruct (broadcast_exact_node_in_order "a/b" (Num 1) w) as (w' & E & _ & F).
  exists w'. split; [exact E|]. apply F. simpl. tauto.
Defined.


(** ** [listenOnce] *)

Lemma call_once_gone info k cp g w :
  tidy w ->
  ~ In (Once k cp g)
       (listeners_at (address cp) (listenersRoot (call (Once k cp g) info w))).
Proof.
  intros T. simpl. rewrite unsubscribe_listeners.
  apply remove_first_gone, call_listeners_NoDup. apply T.
Qed.

Lemma run_task_gone t k cp g w :
  tidy w -> calls_listener (listenersRoot w) t (Once k cp g) ->
  ~ In (Once k cp g) (listeners_at (address cp) (listenersRoot (run_task t w))).
Proof.
  intros T C. destruct t as [l info|node l]; simpl in *.
  - subst l. now apply call_once_gone.
  - destruct C as [-> C].
    destruct (cache_at node (listenersRoot w)); [|congruence].
    now apply call_once_gone.
Qed.

(** Once the event loop has called a [listenOnce] closure, the closure is
    off the list of its node, and stays off. *)
Lemma run_gone k cp g n w :
  List.length (timers w) = n -> tidy w ->
  (exists t, In t (timers w) /\ calls_listener (listenersRoot w) t (Once k cp g)) ->
  ~ In (Once k cp g) (listeners_at (address cp) (listenersRoot (run n w))).
Proof.
  revert w. induction n as [|n IH]; intros w H T (t0 & I & C); simpl.
  - destruct (timers w); [destruct I | discriminate].
  - unfold tick. destruct (timers w) as [|t ts] eqn:E; [discriminate|].
    assert (T' : tidy (run_task t (set_timers ts w)))
      by (intros a; apply run_task_listeners_NoDup, T).
    destruct I as [->|I].
    + intros J. apply run_listeners_incl in J. revert J.
      now apply (run_task_gone t0 k cp g (set_timers ts w)).
    + apply IH; [rewrite run_task_timers; simpl in *; lia | exact T'|].
      exists t0. split; [now rewrite run_task_timers|].
      destruct t0 as [l info|node l]; simpl in *; [exact C|].
      now rewrite (run_task_cache t (set_timers ts w)).
Qed.

Lemma enlist_absent ls h : ~ In h ls -> enlist ls h = ls ++ [h].
Proof. intros N. unfold enlist. apply includes_not_In in N. now rewrite N. Qed.

Lemma settle_idle_replay node g w :
  timers w = [Replay node g] -> cache_at node (listenersRoot w) = None ->
  listenersRoot (settle w) = listenersRoot w.
Proof.
  intros E N. unfold settle. rewrite E. simpl. unfold tick. rewrite E.
  simpl. now rewrite N.
Qed.

Section ListenOnce.
Variables (p : TChannel) (h : TListener) (w : World).

Lemma listenOnce_timers :
  timers (listenOnce p h w)
  = timers w ++ [Replay (address p) (Once (closures w) (toLowerCase p) h)].
Proof. unfold listenOnce. now rewrite subscribe_timers, address_lower. Qed.

Lemma listenOnce_calls : calls (listenOnce p h w) = calls w.
Proof. unfold listenOnce. now rewrite subscribe_calls. Qed.

Lemma listenOnce_cache a :
  cache_at a (listenersRoot (listenOnce p h w)) = cache_at a (listenersRoot w).
Proof. unfold listenOnce. now rewrite subscribe_cache. Qed.

Lemma listenOnce_listeners :
  listeners_at (address p) (listenersRoot (listenOnce p h w))
  = enlist (listeners_at (address p) (listenersRoot w))
           (Once (closures w) (toLowerCase p) h).
Proof.
  unfold listenOnce. rewrite <- (address_lower p) at 1.
  rewrite subscribe_listeners, address_lower. reflexivity.
Qed.
End ListenOnce.

(** X13: take a reachable world with no timer pending, in which the node of
    [p] has no cached message and none of its listeners reaches [h].  After
    [listenOnce p h], with the event loop run between the calls, a first
    [stream] to [p] is delivered to [h], the closure is then off the list,
    and a second [stream] to [p] is not delivered to [h]: [h] receives the
    first payload and nothing else. *)
Theorem listenOnce_once_across_turns (p : TChannel) (h : TListener)
        (x y : value) (w : World) :
  reachable w ->
  timers w = [] ->
  cache_at (address p) (listenersRoot w) = None ->
  (forall l, In l (listeners_at (address p) (listenersRoot w)) -> hits l h = 0) ->
  let w1 := settle (listenOnce p h w) in
  exists w2 w3,
    stream (message_of p x) w1 = Some w2 /\
    stream (message_of p y) (settle w2) = Some w3 /\
    received h w1 = received h w /\
    received h (settle w2) = received h w ++ [x] /\
    ~ In (Once (closures w) (toLowerCase p) h)
         (listeners_at (address p) (listenersRoot (settle w2))) /\
    received h (settle w3) = received h w ++ [x].
Proof.
  intros R Q N F w1. unfold stream. rewrite !explicit_message.
  eexists. eexists. split; [reflexivity|]. split; [reflexivity|].
  set (l := Once (closures w) (toLowerCase p) h).
  set (ls := listeners_at (address p) (listenersRoot w)) in *.
  set (w0 := listenOnce p h w) in *.
  assert (T0 : timers w0 = [Replay (address p) l])
    by (subst w0; now rewrite listenOnce_timers, Q).
  assert (C0 : cache_at (address p) (listenersRoot w0) = None)
    by (subst w0; now rewrite listenOnce_cache).
  assert (Nl : ~ In l ls).
  { intros I. apply F in I. subst l. rewrite hits_once in I. discriminate. }
  assert (L1 : listeners_at (address p) (listenersRoot w1) = ls ++ [l]).
  { subst w1. rewrite (settle_idle_replay _ _ _ T0 C0).
    subst w0. rewrite listenOnce_listeners. now apply enlist_absent. }
  assert (R1 : received h w1 = received h w).
  { subst w1. rewrite settle_received, T0. simpl. rewrite C0, app_nil_r.
    apply received_ext. apply listenOnce_calls. }
  set (w2 := streamMessage {| channel := p; payload := x |} w1).
  assert (T2 : timers w2 = deliveries ls x ++ [Deliver l x]).
  { subst w2. rewrite stream_timers. cbn [channel payload].
    rewrite L1. subst w1. rewrite settle_timers. unfold deliveries.
    now rewrite map_app. }
  assert (R2 : received h (settle w2) = received h w ++ [x]).
  { rewrite settle_received, T2, flat_map_app, payloads_of_deliveries.
    rewrite (no_hits h x ls F). cbn [flat_map task_payloads app].
    subst l. rewrite hits_once. cbn [repeat app].
    rewrite <- R1. f_equal. apply received_ext. apply stream_calls. }
  assert (Rw2 : reachable w2).
  { apply (reach_stream (message_of p x) w1); [|reflexivity].
    apply reachable_run. now apply reach_listenOnce. }
  assert (G : ~ In l (listeners_at (address p) (listenersRoot (settle w2)))).
  { rewrite <- (address_lower p). apply run_gone; [reflexivity | |].
    - now apply reachable_tidy.
    - exists (Deliver l x). split; [|reflexivity].
      rewrite T2. apply in_or_app. right. now left. }
  split; [exact R1|]. split; [exact R2|]. split; [exact G|].
  rewrite settle_received, stream_timers, settle_timers. cbn [channel payload app].
  rewrite payloads_of_deliveries, no_hits, app_nil_r.
  - rewrite <- R2. apply received_ext. apply stream_calls.
  - intros l' I. assert (I' := I). apply run_listeners_incl in I'.
    subst w2. rewrite stream_listeners, L1 in I'.
    apply in_app_or in I' as [I'|[<-|[]]]; [now apply F | contradiction].
Qed.

Lemma listenOnce_once_across_turns_witness :
  exists w2 w3,
    stream (message_of "c" (Num 1)) (settle (listenOnce "c" (Handler 0) newAppRadio))
    = Some w2 /\
    stream (message_of "c" (Num 2)) (settle w2) = Some w3 /\
    received (Handler 0) (settle w3) = [Num 1].
Proof.
  destruct (listenOnce_once_across_turns "c" (Handler 0) (Num 1) (Num 2) newAppRadio)
    as (w2 & w3 & E2 & E3 & _ & _ & _ & Rcv).
  - exact reach_new.
  - reflexivity.
  - reflexivity.
  - simpl. tauto.
  - exists w2, w3. auto.
Defined.

(** X14: in a reachable world with no timer pending, [listenOnce p h] on a
    channel that has a cached message hands that message's payload to [h],
    once, through the replay check; the event loop then leaves the closure
    off the list of the node and the queue empty. *)
Theorem listenOnce_replays_cached_once (p : TChannel) (h : TListener)
        (m : TMessage) (w : World) :
  reachable w ->
  timers w = [] ->
  cache_at (address p) (listenersRoot w) = Some m ->
  let w' := settle (listenOnce p h w) in
  calls (listenOnce p h w) = calls w /\
  received h w' = received h w ++ [payload m] /\
  ~ In (Once (closures w) (toLowerCase p) h)
       (listeners_at (address p) (listenersRoot w')) /\
  timers w' = [].
Proof.
  intros R Q C w'. set (l := Once (closures w) (toLowerCase p) h).
  assert (T0 : timers (listenOnce p h w) = [Replay (address p) l])
    by now rewrite listenOnce_timers, Q.
  assert (C0 : cache_at (address p) (listenersRoot (listenOnce p h w)) = Some m)
    by now rewrite listenOnce_cache.
  split; [apply listenOnce_calls|]. split; [|split; [|apply settle_timers]].
  - subst w'. rewrite settle_received, T0. cbn [flat_map task_payloads].
    rewrite C0. subst l. rewrite hits_once. cbn [repeat app].
    f_equal. apply received_ext. apply listenOnce_calls.
  - rewrite <- (address_lower p). apply run_gone; [reflexivity | |].
    + now apply reachable_tidy, reach_listenOnce.
    + exists (Replay (address p) l). split; [rewrite T0; now left|].
      simpl. split; [reflexivity|]. rewrite C0. discriminate.
Qed.

Lemma listenOnce_replays_cached_once_witness :
  let w := streamMessage {| channel := "c"; payload := Num 9 |} newAppRadio in
  received (Handler 0) (settle (listenOnce "c" (Handler 0) w)) = [Num 9].
Proof.
  intros w.
  apply (listenOnce_replays_cached_once "c" (Handler 0)
           {| channel := "c"; payload := Num 9 |} w).
  - apply (reach_stream (message_of "c" (Num 9)) newAppRadio);
      [exact reach_new | reflexivity].
  - reflexivity.
  - reflexivity.
Defined.


(** ** Caches and late subscribers *)

(** X15: [broadcast] is not replayed.  With no timer pending, no cached
    message on the node of [c] and no listener of that node reaching [h], a
    [subscribe c h] that follows a [broadcast] to [c] brings [h] nothing,
    and the channel does not count as streaming. *)
Theorem broadcast_not_replayed (c : TChannel) (v : value) (h : TListener)
        (w : World) :
  timers w = [] ->
  cache_at (address c) (listenersRoot w) = None ->
  (forall l, In l (listeners_at (address c) (listenersRoot w)) -> hits l h = 0) ->
  exists w',
    broadcast (message_of c v) w = Some w' /\
    fst (isStreaming c w') = false /\
    received h (settle (subscribe c h w')) = received h w.
Proof.
  intros Q N F. unfold broadcast. rewrite explicit_message.
  eexists. split; [reflexivity|].
  set (m := {| channel := c; payload := v |}). split.
  - now rewrite isStreaming_answer, broadcast_cache, N.
  - rewrite settle_received, subscribe_timers, broadcast_timers, Q.
    cbn [app channel payload m].
    rewrite flat_map_app, payloads_of_deliveries, (no_hits h v _ F).
    cbn [flat_map task_payloads app].
    rewrite subscribe_cache, broadcast_cache, N. cbn [app]. rewrite app_nil_r.
    apply received_ext. now rewrite subscribe_calls, broadcast_calls.
Qed.

Lemma broadcast_not_replayed_witness :
  exists w',
    broadcast (message_of "x" (Num 1)) newAppRadio = Some w' /\
    fst (isStreaming "x" w') = false /\
    received (Handler 0) (settle (subscribe "x" (Handler 0) w')) = [].
Proof.
  apply (broadcast_not_replayed "x" (Num 1) (Handler 0) newAppRadio).
  - reflexivity.
  - reflexivity.
  - simpl. tauto.
Defined.

(** X16: after [silence p], a [subscribe q h] on the node of [p] or below
    it gets no replay: the event loop hands [h] what it would have handed it
    without the [subscribe]. *)
Theorem no_replay_after_silence (p q : TChannel) (h : TListener) (w : World) :
  is_prefix (address p) (address q) = true ->
  received h (settle (subscribe q h (silence p w))) = received h (settle (silence p w)).
Proof.
  intros P. rewrite !settle_received, subscribe_timers, flat_map_app.
  cbn [flat_map task_payloads app].
  rewrite subscribe_cache, silence_cache_under by exact P.
  rewrite !app_nil_r. f_equal.
  - apply received_ext, subscribe_calls.
  - apply flat_map_ext. intros t. apply task_payloads_ext.
    intros a. apply subscribe_cache.
Qed.

Lemma no_replay_after_silence_witness :
  let w := streamMessage {| channel := "a/b"; payload := Num 1 |} newAppRadio in
  received (Handler 0) (settle (subscribe "a/b" (Handler 0) (silence "a" w))) = [].
Proof.
  intros w. apply (no_replay_after_silence "a" "a/b" (Handler 0) w). reflexivity.
Defined.

(** X17: [stream] caches its message on the node of its channel and
    nowhere else: that channel is streaming afterwards, with the new message
    in place of an older one, and every other node, above or below it,
    keeps the cache it had; no listener list changes and nobody is called. *)
Theorem stream_caches_on_its_node (c : TChannel) (v : value) (w : World) :
  exists w',
    stream (message_of c v) w = Some w' /\
    cache_at (address c) (listenersRoot w') = Some {| channel := c; payload := v |} /\
    fst (isStreaming c w') = true /\
    (forall a, a <> address c ->
               cache_at a (listenersRoot w') = cache_at a (listenersRoot w)) /\
    (forall q, address q <> address c ->
               fst (isStreaming q w') = fst (isStreaming q w)) /\
    (forall a, listeners_at a (listenersRoot w') = listeners_at a (listenersRoot w)) /\
    calls w' = calls w.
Proof.
  unfold stream. rewrite explicit_message. eexists. split; [reflexivity|].
  set (m := {| channel := c; payload := v |}).
  assert (C : cache_at (address c) (listenersRoot (streamMessage m w)) = Some m)
    by apply (stream_cache m w).
  split; [exact C|]. split; [now rewrite isStreaming_answer, C|].
  split; [intros a D; now apply (stream_cache_other m w)|].
  split.
  - intros q D. rewrite !isStreaming_answer.
    now rewrite (stream_cache_other m w) by exact D.
  - split; [intros a; apply stream_listeners | apply stream_calls].
Qed.

(** X18: the replay check belongs to the call of [subscribe], not to the
    registration.  With no timer pending and a cached message on the node, a
    second [subscribe] of the same handler adds no registration but a second
    replay, and an [unsubscribe] before the event loop runs does not cancel
    the replay. *)
Theorem replay_per_subscribe_call (p : TChannel) (h : TListener) (m : TMessage)
        (w : World) :
  timers w = [] ->
  cache_at (address p) (listenersRoot w) = Some m ->
  received h (settle (subscribe p h w)) = received h w ++ [payload m] /\
  received h (settle (subscribe p h (subscribe p h w)))
  = received h w ++ [payload m; payload m] /\
  received h (settle (unsubscribe p h (subscribe p h w)))
  = received h w ++ [payload m].
Proof.
  intros Q C. repeat split.
  - rewrite settle_received, subscribe_timers, Q. cbn [app flat_map task_payloads].
    rewrite subscribe_cache, C, hits_self. cbn [repeat app]. f_equal.
    apply received_ext, subscribe_calls.
  - rewrite settle_received, !subscribe_timers, Q. cbn [app flat_map task_payloads].
    rewrite !subscribe_cache, C, hits_self. cbn [repeat app]. f_equal.
    apply received_ext. now rewrite !subscribe_calls.
  - rewrite settle_received, unsubscribe_timers, subscribe_timers, Q.
    cbn [app flat_map task_payloads].
    rewrite unsubscribe_cache, subscribe_cache, C, hits_self. cbn [repeat app].
    f_equal. apply received_ext. now rewrite unsubscribe_calls, subscribe_calls.
Qed.

Lemma replay_per_subscribe_call_witness :
  let w := streamMessage {| channel := "c"; payload := Num 4 |} newAppRadio in
  received (Handler 0) (settle (subscribe "c" (Handler 0) (subscribe "c" (Handler 0) w)))
  = [Num 4; Num 4].
Proof.
  intros w.
  apply (replay_per_subscribe_call "c" (Handler 0)
           {| channel := "c"; payload := Num 4 |} w); reflexivity.
Defined.

(** X19: a delivery that is scheduled is not cancelled by [unsubscribe]: a
    handler that is registered on the node when [broadcast] is called still
    receives the payload when it is unsubscribed before the event loop
    runs. *)
Theorem unsubscribe_does_not_cancel_delivery (c : TChannel) (v : value)
        (h : TListener) (w : World) :
  In h (listeners_at (address c) (listenersRoot w)) ->
  exists w',
    broadcast (message_of c v) w = Some w' /\
    In (Deliver h v) (timers (unsubscribe c h w')) /\
    In v (received h (settle (unsubscribe c h w'))).
Proof.
  intros I. unfold broadcast. rewrite explicit_message.
  eexists. split; [reflexivity|].
  set (m := {| channel := c; payload := v |}).
  assert (D : In (Deliver h v) (timers (unsubscribe c h (broadcastMessage m w)))).
  { rewrite unsubscribe_timers, broadcast_timers. apply in_or_app. right.
    now apply (in_map (fun l => Deliver l v)). }
  split; [exact D|].
  rewrite settle_received. apply in_or_app. right.
  apply in_flat_map. exists (Deliver h v). split; [exact D|].
  simpl. rewrite hits_self. now left.
Qed.

Lemma unsubscribe_does_not_cancel_delivery_witness :
  let w := settle (subscribe "c" (Handler 0) newAppRadio) in
  exists w',
    broadcast (message_of "c" (Num 7)) w = Some w' /\
    In (Deliver (Handler 0) (Num 7)) (timers (unsubscribe "c" (Handler 0) w')) /\
    In (Num 7) (received (Handler 0) (settle (unsubscribe "c" (Handler 0) w'))).
Proof.
  intros w. apply (unsubscribe_does_not_cancel_delivery "c" (Num 7) (Handler 0) w).
  simpl. now left.
Defined.

(** ** Arguments of [broadcast] and [stream] *)

(** X20: [broadcast] and [stream] accept a string and an object whose
    [channel] is a string; they throw on [undefined], [null], a boolean, a
    number and an object that has no [channel].  A message object without
    [payload] is published with the payload [undefined]. *)
Theorem publish_argument_check (w : World) :
  (forall message, accepted message ->
     broadcast message w <> None /\ stream message w <> None) /\
  (forall message,
     message = Undefined \/ message = Null \/
     (exists b, message = Bool b) \/ (exists z, message = Num z) \/
     (exists fields, message = Obj fields /\ map_get "channel" fields = None) ->
     broadcast message w = None /\ stream message w = None) /\
  (forall c, broadcast (Obj [("channel", Str c)]) w
             = broadcast (message_of c Undefined) w) /\
  (forall c, stream (Obj [("channel", Str c)]) w
             = Some (streamMessage {| channel := c; payload := Undefined |} w)).
Proof.
  unfold broadcast, stream. repeat split; try reflexivity.
  - destruct message as [| |b|z|s|fields]; simpl in *; try tauto; [discriminate|].
    destruct H as [c H]. unfold explicit. simpl. rewrite H.
    destruct (map_get "payload" fields); discriminate.
  - destruct message as [| |b|z|s|fields]; simpl in *; try tauto; [discriminate|].
    destruct H as [c H]. unfold explicit. simpl. rewrite H.
    destruct (map_get "payload" fields); discriminate.
  - destruct H as [->|[->|[[b ->]|[[z ->]|(fields & -> & H)]]]]; try reflexivity.
    unfold explicit. simpl. now rewrite H.
  - destruct H as [->|[->|[[b ->]|[[z ->]|(fields & -> & H)]]]]; try reflexivity.
    unfold explicit. simpl. now rewrite H.
Qed.

Lemma publish_argument_check_witness :
  stream (Obj [("channel", Str "a")]) newAppRadio <> None /\
  broadcast (Obj [("payload", Num 1)]) newAppRadio = None.
Proof.
  destruct (publish_argument_check newAppRadio) as (Ok & Throws & _).
  split.
  - apply Ok. now exists "a".
  - apply Throws. do 4 right. eexists. split; reflexivity.
Defined.
